(** * kxg game engine: messages, forum and demo world

    A shallow embedding of the messaging core of the engine:
    - [kxg/messages.py]       the [Message] protocol,
    - [modules/messaging.py]  the [Forum] publish/subscribe hub and [Timer],
    - [demos/guess_my_number.py] the [GuessNumber] demo message.

    Python objects are records, optional attributes are [option] fields,
    dictionaries are [gmap]s, queues and lists are [list]s.  Methods that can
    raise are computations in [M]: the object state is returned next to
    the result, because a Python exception does not roll back mutations.

    [Token], [World], the pipes and the id factory belong to files of the
    package that are not among these three.  Where a method only calls them,
    they are parameters of the embedding; [WorldModel] gives tokens and the
    world a concrete model, taken from the specification of the engine. *)

From stdpp Require Import gmap strings list fin_maps.
From Stdlib Require Import ZArith Sorted.

Local Open Scope Z_scope.

(** ** Exceptions and the state-with-exceptions monad *)

Inductive exn : Set :=
| MessageAlreadySent
| ApiUsageError
| UnhandledSyncError
| AttributeError
| LookupError
| AssertionError.

Inductive result (A : Type) : Type :=
| Return (a : A)
| Raise (e : exn).
Arguments Return {A} a.
Arguments Raise {A} e.

(** A method body running against a mutable state [S]. *)
Definition M (S A : Type) : Type := S → S * result A.

Definition ret {S A} (a : A) : M S A := λ s, (s, Return a).
Definition raise {S A} (e : exn) : M S A := λ s, (s, Raise e).
Definition bind {S A B} (c : M S A) (k : A → M S B) : M S B :=
  λ s, match c s with
       | (s', Return a) => k a s'
       | (s', Raise e) => (s', Raise e)
       end.
Definition gets {S A} (f : S → A) : M S A := λ s, (s, Return (f s)).
Definition modify {S} (f : S → S) : M S unit := λ s, (f s, Return tt).

Notation "'let!' x ':=' c 'in' k" := (bind c (λ x, k))
  (at level 10, x name, c at level 100, k at level 200, only parsing).
Notation "c ';;;' k" := (bind c (λ _, k))
  (at level 100, k at level 200, right associativity, only parsing).

(** [for x in l: body(x)] *)
Fixpoint for_each {S A} (l : list A) (body : A → M S unit) : M S unit :=
  match l with
  | [] => ret tt
  | x :: rest => body x ;;; for_each rest body
  end.

(** ** kxg/messages.py *)

Module Messages.

(** [Message.ErrorState] *)
Definition SOFT_SYNC_ERROR : Z := 0.
Definition HARD_SYNC_ERROR : Z := 1.

Section Message.
(** [V] is the type of Python values a caller may hand to a message. *)
Context {V : Type}.

(** The instance dictionary of a [Message].  [sender_id], [_error_state]
    and [_was_sent] are attributes that exist only once assigned. *)
Record Message : Type := mkMessage {
  tokens_to_add : list V;
  tokens_to_remove : list V;
  sender_id : option Z;
  _error_state : option Z;
  _was_sent : option bool
}.

Definition set_tokens_to_add (l : list V) (m : Message) : Message :=
  mkMessage l (tokens_to_remove m) (sender_id m) (_error_state m) (_was_sent m).
Definition set_tokens_to_remove (l : list V) (m : Message) : Message :=
  mkMessage (tokens_to_add m) l (sender_id m) (_error_state m) (_was_sent m).
Definition set_sender_id (i : Z) (m : Message) : Message :=
  mkMessage (tokens_to_add m) (tokens_to_remove m) (Some i) (_error_state m) (_was_sent m).
Definition set_error_state (e : Z) (m : Message) : Message :=
  mkMessage (tokens_to_add m) (tokens_to_remove m) (sender_id m) (Some e) (_was_sent m).

(** [Message.__init__] *)
Definition __init__ : Message := mkMessage [] [] None None None.

(** The dictionary produced by [__getstate__]: the token lists are deleted
    from the copy when they are empty. *)
Record State : Type := mkState {
  st_tokens_to_add : option (list V);
  st_tokens_to_remove : option (list V);
  st_sender_id : option Z;
  st_error_state : option Z;
  st_was_sent : option bool
}.

(** [not l] for a Python list. *)
Definition is_empty (l : list V) : bool :=
  match l with [] => true | _ => false end.

Definition __getstate__ (m : Message) : State :=
  mkState
    (if is_empty (tokens_to_add m) then None else Some (tokens_to_add m))
    (if is_empty (tokens_to_remove m) then None else Some (tokens_to_remove m))
    (sender_id m) (_error_state m) (_was_sent m).

(** [Message.__init__(self); self.__dict__.update(state);
    self._was_sent = True]: keys present in [state] overwrite the freshly
    initialised attributes, absent keys keep their initial value. *)
Definition __setstate__ (state : State) : Message :=
  let self := __init__ in
  mkMessage
    (default (tokens_to_add self) (st_tokens_to_add state))
    (default (tokens_to_remove self) (st_tokens_to_remove state))
    (st_sender_id state)
    (st_error_state state)
    (Some true).

(** The message a peer obtains by pickling [m] and unpickling the result. *)
Definition unpickled (m : Message) : Message := __setstate__ (__getstate__ m).

(** [hasattr(self, 'sender_id')] *)
Definition was_sent (m : Message) : bool :=
  match sender_id m with Some _ => true | None => false end.

(** [getattr(self, '_error_state', None) == Message.ErrorState.X]; the
    comparison of [None] with an integer is false. *)
Definition py_eq_opt (a : option Z) (b : Z) : bool :=
  match a with Some x => x =? b | None => false end.

Definition has_soft_sync_error (m : Message) : bool :=
  py_eq_opt (_error_state m) SOFT_SYNC_ERROR.
Definition has_hard_sync_error (m : Message) : bool :=
  py_eq_opt (_error_state m) HARD_SYNC_ERROR.

(** Modelled from the spec: [require_token] lives in [kxg/tokens.py], which
    is not part of the sources at hand.  The spec classes "adding a
    non-token" as a contract violation that fails immediately; [is_token]
    is the instance test it performs. *)
Variable is_token : V → bool.

Definition require_token (object : V) : M Message unit :=
  if is_token object then ret tt else raise ApiUsageError.

Definition check_not_sent : M Message unit :=
  let! sent := gets was_sent in
  if sent then raise MessageAlreadySent else ret tt.

Definition add_token (token : V) : M Message unit :=
  require_token token ;;;
  check_not_sent ;;;
  modify (λ self, set_tokens_to_add (tokens_to_add self ++ [token]) self).

Definition add_tokens (tokens : list V) : M Message unit :=
  check_not_sent ;;;
  modify (λ self, set_tokens_to_add (tokens_to_add self ++ tokens) self).

Definition remove_token (token : V) : M Message unit :=
  require_token token ;;;
  check_not_sent ;;;
  modify (λ self, set_tokens_to_remove (tokens_to_remove self ++ [token]) self).

Definition remove_tokens (tokens : list V) : M Message unit :=
  check_not_sent ;;;
  modify (λ self, set_tokens_to_remove (tokens_to_remove self ++ tokens) self).

(** [_set_sender_id]: [sender_id.get()] is passed as [i]. *)
Definition _set_sender_id (i : Z) (m : Message) : Message := set_sender_id i m.

(** [_set_error_state], with the answer of the domain hook
    [on_check_for_soft_sync_error(world)] supplied by [hook]. *)
Definition _set_error_state {W} (hook : Message → W → bool) (world : W)
    (m : Message) : Message :=
  if hook m world
  then set_error_state SOFT_SYNC_ERROR m
  else set_error_state HARD_SYNC_ERROR m.

(** The default hook of the base class returns [False]. *)
Definition on_check_for_soft_sync_error {W} (m : Message) (world : W) : bool := false.

End Message.
Arguments Message V : clear implicits.
Arguments State V : clear implicits.

(** *** Sender provenance *)

Section Provenance.
Context {V : Type}.

(** [self.sender_id == sender_id.get()]: reading the attribute of a message
    that was not sent raises [AttributeError]; the identity that
    [sender_id.get()] returns is passed as [i]. *)
Definition was_sent_by (i : Z) : M (Message V) bool :=
  λ self, match sender_id self with
          | Some j => (self, Return (j =? i))
          | None => (self, Raise AttributeError)
          end.

(** [self.sender_id == 0] *)
Definition was_sent_by_referee : M (Message V) bool :=
  λ self, match sender_id self with
          | Some j => (self, Return (j =? 0))
          | None => (self, Raise AttributeError)
          end.

End Provenance.

(** *** [Message._check] *)

Section Check.
Context {V W F Id : Type}.

(** The collaborators of [_check] are declared outside the module: the
    world's membership test ([token in world]), the token's [id] attribute
    ([None] when the value has no such attribute), and the id factory's
    membership test and [get()]. *)
Variable world_contains : W → V → bool.
Variable token_id : V → option Id.
Variable factory_contains : F → Id → bool.
Variable factory_get : F → Z.

(** The overridable hook [on_check(world, sender_id)]. *)
Variable on_check : Message V → W → Z → bool.

(** Calls of the domain hook are recorded, in order, in a log. *)
Inductive HookCall : Type :=
| CallOnCheck (world : W) (sender : Z).

(** The two loops of [_check]; [Some b] stands for an executed
    [return b], [None] for a loop that ran to its end. *)
Fixpoint check_tokens_to_add (world : W) (id_factory : F) (tokens : list V)
    : M (list HookCall) (option bool) :=
  match tokens with
  | [] => ret None
  | token :: rest =>
      if world_contains world token then ret (Some false)
      else match token_id token with
           | None => raise AttributeError
           | Some id =>
               if negb (factory_contains id_factory id) then ret (Some false)
               else check_tokens_to_add world id_factory rest
           end
  end.

Fixpoint check_tokens_to_remove (world : W) (tokens : list V)
    : M (list HookCall) (option bool) :=
  match tokens with
  | [] => ret None
  | token :: rest =>
      if negb (world_contains world token) then ret (Some false)
      else check_tokens_to_remove world rest
  end.

Definition call_on_check (self : Message V) (world : W) (sender : Z)
    : M (list HookCall) bool :=
  modify (λ log, log ++ [CallOnCheck world sender]) ;;;
  ret (on_check self world sender).

Definition _check (self : Message V) (world : W) (id_factory : F)
    : M (list HookCall) bool :=
  let! r := check_tokens_to_add world id_factory (tokens_to_add self) in
  match r with
  | Some b => ret b
  | None =>
      let! r := check_tokens_to_remove world (tokens_to_remove self) in
      match r with
      | Some b => ret b
      | None => call_on_check self world (factory_get id_factory)
      end
  end.

(** The structural condition on one token to add, as a test: the token
    is not in the world yet and its id was issued by the factory. *)
Definition addable (world : W) (id_factory : F) (token : V) : bool :=
  negb (world_contains world token) &&
  match token_id token with
  | Some id => factory_contains id_factory id
  | None => false
  end.

End Check.
Arguments HookCall W : clear implicits.

(** The default [on_check] of the base class returns [True]. *)
Definition default_on_check {V W} (self : Message V) (world : W) (sender : Z) : bool := true.

(** *** [Message._handle_hard_sync_error] *)

(** The operations of [World] and [Token] that a message uses.  Both
    classes are declared in other files of the package; a message only
    sees this interface, running against the program state [Σ]. *)
Class WorldOps (V Id Σ : Type) : Type := {
  token_id : V → M Σ Id;                (* token.id *)
  set_token_id : V → Id → M Σ unit;     (* token._id = id *)
  reset_registration : V → M Σ unit;    (* token.reset_registration() *)
  get_token : Id → M Σ V;               (* world.get_token(id) *)
  _add_token : V → M Σ unit;            (* world._add_token(token) *)
  _remove_token : V → M Σ unit          (* world._remove_token(token) *)
}.

Section SyncErrors.
Context {V Id Σ : Type} {ops : WorldOps V Id Σ}.

(** The overridable hooks [on_execute], [on_soft_sync_error] and
    [on_hard_sync_error]. *)
Variable on_execute : Message V → M Σ unit.
Variable on_soft_sync_error : Message V → M Σ unit.
Variable on_hard_sync_error : Message V → M Σ unit.

Definition _execute (self : Message V) : M Σ unit :=
  for_each (tokens_to_add self) (λ token, _add_token token) ;;;
  for_each (tokens_to_remove self) (λ token, _remove_token token) ;;;
  on_execute self.

Definition _handle_soft_sync_error (self : Message V) : M Σ unit :=
  on_soft_sync_error self.

Definition _handle_hard_sync_error (self : Message V) : M Σ unit :=
  for_each (tokens_to_add self) (λ token,
    let! id := token_id token in
    let! real_token := get_token id in
    _remove_token real_token) ;;;
  for_each (tokens_to_remove self) (λ token,
    let! id := token_id token in
    reset_registration token ;;;
    set_token_id token id ;;;
    _add_token token) ;;;
  on_hard_sync_error self.

End SyncErrors.

(** The defaults of the base class: [on_execute] and [on_soft_sync_error]
    do nothing, [on_hard_sync_error] raises [UnhandledSyncError(self)]. *)
Definition default_on_execute {V Σ} (self : Message V) : M Σ unit := ret tt.
Definition default_on_soft_sync_error {V Σ} (self : Message V) : M Σ unit := ret tt.
Definition default_on_hard_sync_error {V Σ} (self : Message V) : M Σ unit :=
  raise UnhandledSyncError.

End Messages.

(** ** modules/messaging.py *)

Module Messaging.

(** Pipes and callbacks are objects of other modules; the forum only
    stores them, compares pipes by identity and calls them.  Both are
    represented by their identity. *)
Definition Pipe : Type := nat.
Definition Callback : Type := nat.

(** The tag of a network packet: [(target, origin, ticker)]. *)
Definition Tag : Type := Z * Z * Z.

Section Forum.
Context {Msg Flavor : Type} `{Countable Flavor}.

(** [type(message)]: the flavor of a message is its class. *)
Variable type : Msg → Flavor.

(** An item yielded by [pipe.receive] and [pipe.deliver]:
    [(tag, flavor, message)]. *)
Definition Packet : Type := Tag * Flavor * Msg.

(** An entry of the publication queue: [(pipe, tag, message)], with
    [pipe = tag = None] for a local publication. *)
Definition Publication : Type := option Pipe * option Tag * Msg.

Record Forum : Type := mkForum {
  pipes : list Pipe;
  history : gmap Z Z;
  subscriptions : gmap Flavor (list Callback);
  publications : list Publication;
  target : Z;
  locked : bool
}.

Definition set_pipes (v : list Pipe) (f : Forum) : Forum :=
  mkForum v (history f) (subscriptions f) (publications f) (target f) (locked f).
Definition set_history (v : gmap Z Z) (f : Forum) : Forum :=
  mkForum (pipes f) v (subscriptions f) (publications f) (target f) (locked f).
Definition set_subscriptions (v : gmap Flavor (list Callback)) (f : Forum) : Forum :=
  mkForum (pipes f) (history f) v (publications f) (target f) (locked f).
Definition set_publications (v : list Publication) (f : Forum) : Forum :=
  mkForum (pipes f) (history f) (subscriptions f) v (target f) (locked f).
Definition set_locked (v : bool) (f : Forum) : Forum :=
  mkForum (pipes f) (history f) (subscriptions f) (publications f) (target f) v.

(** [queue.Queue.put]: first in, first out. *)
Definition put (p : Publication) (f : Forum) : Forum :=
  set_publications (publications f ++ [p]) f.

(** What the forum does to the outside: the calls it makes on callbacks
    and pipes, in order.  Callbacks and pipes are code of the caller: a call
    is recorded, and the callee is taken not to call back into the forum
    while a method of the forum runs. *)
Inductive Event : Type :=
| Called (callback : Callback) (message : Msg)
| Registered (pipe : Pipe) (target : Z)
| Resent (pipe : Pipe) (tag : Tag) (message : Msg)
| Sent (pipe : Pipe) (target : Z) (message : Msg).

(** What the pipes answer during one [update]: the items of
    [pipe.receive(target)] and of [pipe.deliver()]. *)
Record PipeIO : Type := mkPipeIO {
  receive : Pipe → Z → list Packet;
  deliver : Pipe → list Packet
}.

Definition subscribe (flavor : Flavor) (callback : Callback) : M Forum unit :=
  let! is_locked := gets locked in
  if is_locked then raise AssertionError
  else modify (λ self,
    match subscriptions self !! flavor with
    | Some callbacks => set_subscriptions (<[flavor := callbacks ++ [callback]]> (subscriptions self)) self
    | None => set_subscriptions (<[flavor := [callback]]> (subscriptions self)) self
    end).

Definition publish (message : Msg) (self : Forum) : Forum :=
  put (None, None, message) self.

Definition lock (self : Forum) : Forum := set_locked true self.

Definition unlock (self : Forum) : Forum :=
  set_publications [] (set_subscriptions ∅ (set_locked false self)).

Definition setup (new_pipes : list Pipe) : M Forum (list Event) :=
  let! is_locked := gets locked in
  if is_locked then raise AssertionError
  else λ self,
    (set_pipes (pipes self ++ new_pipes) self,
     Return (map (λ pipe, Registered pipe (target self)) new_pipes)).

(** The body of the loop over [pipe.receive(target)].  The local variable
    [target] is rebound by unpacking the tag; it travels with the forum. *)
Definition accept_packet (pipe : Pipe) (st : Forum * Z) (packet : Packet) : Forum * Z :=
  let '(self, _) := st in
  let '(tag, flavor, message) := packet in
  let '(target, origin, ticker) := tag in
  let old_ticker := default 0 (history self !! origin) in
  if ticker >? old_ticker
  then (set_history (<[origin := ticker]> (history self))
          (put (Some pipe, Some tag, message) self), target)
  else (self, target).

Definition receive_from (io : PipeIO) (st : Forum * Z) (pipe : Pipe) : Forum * Z :=
  foldl (accept_packet pipe) st (receive io pipe (snd st)).

Definition receive_incoming (io : PipeIO) (st : Forum * Z) : Forum * Z :=
  foldl (receive_from io) st (pipes (fst st)).

(** [pipe is not sender] *)
Definition is_not (pipe : Pipe) (sender : option Pipe) : bool :=
  match sender with
  | Some p => negb (Nat.eqb pipe p)
  | None => true
  end.

(** Delivery of one publication popped off the queue. *)
Definition deliver_publication (self : Forum) (target : Z) (publication : Publication)
    : list Event :=
  let '(sender, tag, message) := publication in
  let flavor := type message in
  let callbacks := default [] (subscriptions self !! flavor) in
  map (λ callback, Called callback message) callbacks ++
  flat_map (λ pipe,
    if is_not pipe sender then
      match tag with
      | Some tag => [Resent pipe tag message]
      | None => [Sent pipe target message]
      end
    else []) (pipes self).

(** The [while True] loop: publications are popped one at a time until
    [queue.Empty] is raised. *)
Fixpoint drain (self : Forum) (target : Z) (queue : list Publication) : list Event :=
  match queue with
  | [] => []
  | publication :: rest => deliver_publication self target publication ++ drain self target rest
  end.

Definition note_delivered (st : Forum * Z) (packet : Packet) : Forum * Z :=
  let '(self, _) := st in
  let '(tag, flavor, message) := packet in
  let '(target, origin, ticker) := tag in
  (set_history (<[origin := ticker]> (history self)) self, target).

Definition flush_outgoing (io : PipeIO) (st : Forum * Z) : Forum * Z :=
  foldl (λ st pipe, foldl note_delivered st (deliver io pipe)) st (pipes (fst st)).

Definition update (io : PipeIO) : M Forum (list Event) :=
  λ self,
    if negb (locked self) then (self, Raise AssertionError)
    else
      let '(self1, target1) := receive_incoming io (self, target self) in
      let events := drain self1 target1 (publications self1) in
      let self2 := set_publications [] self1 in
      let '(self3, _) := flush_outgoing io (self2, target1) in
      (self3, Return events).

Definition teardown (self : Forum) : Forum :=
  mkForum [] ∅ ∅ [] (target self) false.

(** [Forum.__init__], called with the pipes to connect. *)
Definition Forum__init__ (new_pipes : list Pipe) : Forum * result (list Event) :=
  setup new_pipes (mkForum [] ∅ ∅ [] 1 false).

(** *** Programs that use a forum

    A caller drives a forum by a sequence of method calls.  A call whose
    assertion fails leaves the forum as it was (both assertions are the
    first statement of their method) and the caller goes on. *)
Inductive Op : Type :=
| DoSubscribe (flavor : Flavor) (callback : Callback)
| DoPublish (message : Msg)
| DoLock
| DoUnlock
| DoSetup (new_pipes : list Pipe)
| DoUpdate (io : PipeIO)
| DoTeardown.

Definition step (op : Op) (self : Forum) : Forum * list Event :=
  match op with
  | DoSubscribe flavor callback => ((subscribe flavor callback self).1, [])
  | DoPublish message => (publish message self, [])
  | DoLock => (lock self, [])
  | DoUnlock => (unlock self, [])
  | DoSetup new_pipes =>
      match setup new_pipes self with
      | (self', Return events) => (self', events)
      | (self', Raise _) => (self', [])
      end
  | DoUpdate io =>
      match update io self with
      | (self', Return events) => (self', events)
      | (self', Raise _) => (self', [])
      end
  | DoTeardown => (teardown self, [])
  end.

Fixpoint run (ops : list Op) (self : Forum) : Forum * list Event :=
  match ops with
  | [] => (self, [])
  | op :: rest =>
      let '(self1, events1) := step op self in
      let '(self2, events2) := run rest self1 in
      (self2, events1 ++ events2)
  end.

(** A callback is subscribed when some flavor lists it; a message is
    pending when the publication queue holds it; a message comes from the
    pipes when some [pipe.receive] yields it. *)
Definition subscribed (self : Forum) (callback : Callback) : Prop :=
  ∃ flavor callbacks, subscriptions self !! flavor = Some callbacks ∧ callback ∈ callbacks.

Definition pending_message (self : Forum) (message : Msg) : Prop :=
  ∃ sender tag, (sender, tag, message) ∈ publications self.

Definition from_pipes (io : PipeIO) (message : Msg) : Prop :=
  ∃ pipe target tag flavor, (tag, flavor, message) ∈ receive io pipe target.

(** What the receiving phase of [update] keeps: subscriptions and pipes
    do not change, and every pending message was pending before or came
    from a pipe. *)
Definition received_from (io : PipeIO) (self0 : Forum) (st : Forum * Z) : Prop :=
  subscriptions st.1 = subscriptions self0 ∧
  pipes st.1 = pipes self0 ∧
  ∀ message, pending_message st.1 message →
             pending_message self0 message ∨ from_pipes io message.

(** The ticker recorded for an origin, [history.get(origin, 0)]. *)
Definition seen (self : Forum) (origin : Z) : Z := default 0 (history self !! origin).

(** The tickers that a sequence of packets carries for one origin. *)
Definition tickers_of (origin : Z) (packets : list Packet) : list Z :=
  flat_map (λ packet : Packet,
    let '(tag, _, _) := packet in
    let '(_, o, ticker) := tag in
    if decide (o = origin) then [ticker] else []) packets.

(** The target found in the tag of the last packet of a batch, [t] for an
    empty batch: the value of the local variable [target] after the loop. *)
Definition last_target (t : Z) (packets : list Packet) : Z :=
  match last packets with
  | Some (tg, _, _, _, _) => tg
  | None => t
  end.

(** The ticker found in the last packet that a batch carries for an
    origin, [k] when it carries none. *)
Definition last_ticker (origin : Z) (k : Z) (packets : list Packet) : Z :=
  default k (last (tickers_of origin packets)).

(** The tickers of the queued publications that came over the network from
    one origin, in queue order. *)
Definition queued_tickers (origin : Z) (queue : list Publication) : list Z :=
  flat_map (λ publication : Publication,
    match publication with
    | (_, Some (_, o, ticker), _) => if decide (o = origin) then [ticker] else []
    | (_, None, _) => []
    end) queue.

(** Two forums have the same configuration: the same pipes, subscriptions,
    target and lock flag. *)
Definition same_config (self self' : Forum) : Prop :=
  pipes self' = pipes self ∧
  subscriptions self' = subscriptions self ∧
  target self' = target self ∧
  locked self' = locked self.

(** A local publication, as [publish] queues it. *)
Definition local_publication (message : Msg) : Publication := (None, None, message).

End Forum.
Arguments Forum Msg Flavor {_ _}.
Arguments Publication Msg : clear implicits.
Arguments Packet Msg Flavor : clear implicits.
Arguments Event Msg : clear implicits.
Arguments PipeIO Msg Flavor : clear implicits.
Arguments Op Msg Flavor : clear implicits.

(** *** [class Timer (Forum)] *)

Section Timer.
Context {Msg Flavor : Type} `{Countable Flavor}.

(** Delays and elapsed times are Python numbers.  The timer only
    subtracts them and compares the difference with zero, so the number
    type is left open: [minus] is [delay - time] and [negative d] is
    [d < 0]. *)
Context {num : Type}.
Variable minus : num → num → num.
Variable negative : num → bool.

Record Timer : Type := mkTimer {
  forum : Forum Msg Flavor;
  pending : list (num * Msg)
}.

Definition Timer__init__ (new_pipes : list Pipe) : Timer * result (list (Event Msg)) :=
  let '(f, r) := Forum__init__ new_pipes in
  (mkTimer f [], r).

Definition Timer_publish (message : Msg) (delay : num) (self : Timer) : Timer :=
  mkTimer (forum self) (pending self ++ [(delay, message)]).

(** The body of the loop of [Timer.deliver]. *)
Definition reschedule (time : num) (self : Timer) (package : num * Msg) : Timer :=
  let '(delay, message) := package in
  let delay := minus delay time in
  if negative delay
  then mkTimer (publish message (forum self)) (pending self)
  else Timer_publish message delay self.

(** [Timer.deliver]: the last statement, [Forum.deliver(self)], looks up
    an attribute that class [Forum] does not define. *)
Definition Timer_deliver (time : num) : M Timer unit :=
  λ self,
    let pending := pending self in
    let self := mkTimer (forum self) [] in
    let self := foldl (reschedule time) self pending in
    (self, Raise AttributeError).

(** The remaining delay of a package after [time] has elapsed is
    negative, or is not. *)
Definition overdue (time : num) (package : num * Msg) : bool :=
  negative (minus package.1 time).

Definition still_waiting (time : num) (package : num * Msg) : bool :=
  negb (overdue time package).

End Timer.
Arguments Timer Msg Flavor {_ _} num.

End Messaging.

(** ** demos/guess_my_number.py *)

Module GuessMyNumber.

(** The demo [World].  Modelled from the spec: [end_game] belongs to the
    base class [kxg.World], which is not part of the sources at hand; the
    spec only says that it "ends the game", recorded here in [game_over]. *)
Record World : Type := mkWorld {
  number : Z;
  lower_bound : Z;
  upper_bound : Z;
  winner : Z;
  game_over : bool
}.

Definition World__init__ : World := mkWorld 0 0 0 0 false.

Definition end_game (world : World) : World :=
  mkWorld (number world) (lower_bound world) (upper_bound world) (winner world) true.

Record PickNumber : Type := mkPickNumber {
  pick_lower_bound : Z;
  pick_upper_bound : Z;
  pick_number : Z
}.

Definition PickNumber_on_execute (self : PickNumber) (world : World) : World :=
  mkWorld (pick_number self) (pick_lower_bound self) (pick_upper_bound self)
    (winner world) (game_over world).

Record GuessNumber : Type := mkGuessNumber {
  player : Z;
  guess : Z
}.

Definition on_execute (self : GuessNumber) (world : World) : World :=
  if guess self =? number world then
    end_game (mkWorld (number world) (lower_bound world) (upper_bound world)
                (player self) (game_over world))
  else if guess self <? number world then
    mkWorld (number world) (Z.max (guess self) (lower_bound world))
      (upper_bound world) (winner world) (game_over world)
  else if guess self >? number world then
    mkWorld (number world) (lower_bound world)
      (Z.min (guess self) (upper_bound world)) (winner world) (game_over world)
  else world.

(** The exceptions of the demo: [kxg.MessageCheck] with its text, and the
    [ValueError] of [random.randint] on an empty range. *)
Inductive demo_exn : Type :=
| MessageCheck (text : string)
| ValueError.

(** [random.randint(a, b)]: some integer [N] with [a <= N <= b], and a
    [ValueError] when there is none.  The draw is supplied by [entropy]: as
    it ranges over the integers the result ranges over all of [a..b]. *)
Definition randint (entropy a b : Z) : demo_exn + Z :=
  if a <=? b then inr (a + entropy `mod` (b - a + 1)) else inl ValueError.

(** [PickNumber.__init__(lower_bound, upper_bound)] *)
Definition PickNumber__init__ (entropy lower upper : Z) : demo_exn + PickNumber :=
  match randint entropy (lower + 1) (upper - 1) with
  | inr n => inr (mkPickNumber lower upper n)
  | inl e => inl e
  end.

(** [PickNumber.on_check]: [None] when the check passes. *)
Definition PickNumber_on_check (self : PickNumber) (world : World) : option demo_exn :=
  if negb ((pick_lower_bound self <? pick_number self) &&
           (pick_number self <? pick_upper_bound self))
  then Some (MessageCheck "number out of bounds")
  else None.

(** [Referee.on_start_game] sends [PickNumber(0, 5)]. *)
Definition Referee_on_start_game (entropy : Z) : demo_exn + PickNumber :=
  PickNumber__init__ entropy 0 5.

(** [GuessNumber.on_check] is [pass]: it accepts every guess. *)
Definition on_check (self : GuessNumber) (world : World) : option demo_exn := None.

(** [AiActor]: the actor's id and its timer.  Times are Python numbers; as
    for [Timer], only the subtraction [minus] and the test [negative] (for
    [timer < 0]) are used.  [fresh_timer] is what [random.uniform(1, 3)]
    answers in [reset_timer]. *)
Section AiActor.
Context {num : Type}.
Variable minus : num → num → num.
Variable negative : num → bool.

Record AiActor : Type := mkAiActor {
  actor_id : Z;
  timer : num
}.

Definition reset_timer (fresh_timer : num) (self : AiActor) : AiActor :=
  mkAiActor (actor_id self) fresh_timer.

(** [AiActor.on_update_game(dt)].  The result is the actor afterwards and
    either the exception that escaped or the message handed to [>>], if
    any. *)
Definition on_update_game (entropy : Z) (fresh_timer : num) (world : World) (dt : num)
    (self : AiActor) : AiActor * (demo_exn + option GuessNumber) :=
  let self := mkAiActor (actor_id self) (minus (timer self) dt) in
  if negative (timer self) then
    let lower := lower_bound world + 1 in
    let upper := upper_bound world - 1 in
    match randint entropy lower upper with
    | inr guess =>
        (reset_timer fresh_timer self, inr (Some (mkGuessNumber (actor_id self) guess)))
    | inl e => (self, inl e)
    end
  else (self, inr None).

End AiActor.
Arguments AiActor num : clear implicits.

(** The secret number lies strictly between the bounds. *)
Definition bracketed (world : World) : Prop :=
  lower_bound world < number world < upper_bound world.

(** The guesses of a game, executed in order. *)
Definition play (guesses : list GuessNumber) (world : World) : World :=
  foldl (λ w g, on_execute g w) world guesses.

End GuessMyNumber.

(** ** Tokens and the world *)

Module WorldModel.

(** Modelled from the spec: [Token] and [World] are declared in files of
    the package that are not part of the sources at hand.  The spec gives a
    token an identity and a registration state (unregistered, registered in
    the world, removed), and makes the world the aggregate of the registered
    tokens keyed by id.  Tokens are mutable objects shared between the
    world and the messages that mention them, so they live in a heap and
    are referred to by address. *)
Inductive Registration : Set :=
| Unregistered
| RegisteredInWorld
| RemovedFromWorld.

Record Token : Type := mkToken {
  id : option Z;
  registration : Registration
}.

Record Store : Type := mkStore {
  heap : gmap nat Token;
  world : gmap Z nat
}.

Definition set_heap (h : gmap nat Token) (s : Store) : Store := mkStore h (world s).
Definition set_world (w : gmap Z nat) (s : Store) : Store := mkStore (heap s) w.

Section Operations.

(** Modelled from the spec: what [reset_registration] leaves in the id
    attribute.  The spec says the id is preserved; [_handle_hard_sync_error]
    assigns it again after the reset, so the operation is kept open. *)
Variable id_after_reset : option Z → option Z.

Definition load (token : nat) : M Store Token :=
  λ s, match heap s !! token with
       | Some t => (s, Return t)
       | None => (s, Raise AttributeError)
       end.

Definition save (token : nat) (t : Token) : M Store unit :=
  modify (λ s, set_heap (<[token := t]> (heap s)) s).

Definition token_id (token : nat) : M Store (option Z) :=
  let! t := load token in ret (id t).

Definition set_token_id (token : nat) (i : option Z) : M Store unit :=
  let! t := load token in save token (mkToken i (registration t)).

(** Modelled from the spec: "returns to unregistered". *)
Definition reset_registration (token : nat) : M Store unit :=
  let! t := load token in save token (mkToken (id_after_reset (id t)) Unregistered).

(** Modelled from the spec: tokens "are located by id in the world". *)
Definition get_token (i : option Z) : M Store nat :=
  λ s, match i with
       | Some i =>
           match world s !! i with
           | Some token => (s, Return token)
           | None => (s, Raise LookupError)
           end
       | None => (s, Raise LookupError)
       end.

(** Modelled from the spec: a token enters the world with its id fixed;
    adding a token without an id, a token that is already registered, or a
    removed token that was not reset, is a contract violation. *)
Definition _add_token (token : nat) : M Store unit :=
  let! t := load token in
  match registration t, id t with
  | Unregistered, Some i =>
      λ s, match world s !! i with
           | None =>
               (mkStore (<[token := mkToken (Some i) RegisteredInWorld]> (heap s))
                        (<[i := token]> (world s)), Return tt)
           | Some _ => (s, Raise ApiUsageError)
           end
  | _, _ => raise ApiUsageError
  end.

(** Modelled from the spec: only a token registered in the world can be
    removed; it keeps its id and becomes "removed (frozen, read-only)". *)
Definition _remove_token (token : nat) : M Store unit :=
  let! t := load token in
  match registration t, id t with
  | RegisteredInWorld, Some i =>
      λ s, if decide (world s !! i = Some token)
           then (mkStore (<[token := mkToken (Some i) RemovedFromWorld]> (heap s))
                         (delete i (world s)), Return tt)
           else (s, Raise ApiUsageError)
  | _, _ => raise ApiUsageError
  end.

#[local] Instance store_ops : Messages.WorldOps nat (option Z) Store := {
  Messages.token_id := token_id;
  Messages.set_token_id := set_token_id;
  Messages.reset_registration := reset_registration;
  Messages.get_token := get_token;
  Messages._add_token := _add_token;
  Messages._remove_token := _remove_token
}.

End Operations.

(** The store a hard synchronisation error is expected to leave behind.
    [undo_added] detaches the world's instance of a speculatively added
    token, [restore_removed] puts a speculatively removed token back
    under its id. *)
Definition undo_added (s : Store) (entry : nat * Z * nat) : Store :=
  let '(_, i, real_token) := entry in
  mkStore (<[real_token := mkToken (Some i) RemovedFromWorld]> (heap s))
          (delete i (world s)).

Definition restore_removed (s : Store) (entry : nat * Z) : Store :=
  let '(token, i) := entry in
  mkStore (<[token := mkToken (Some i) RegisteredInWorld]> (heap s))
          (<[i := token]> (world s)).

Definition reversed (s : Store) (added : list (nat * Z * nat)) (removed : list (nat * Z)) : Store :=
  foldl restore_removed (foldl undo_added s added) removed.

(** The situation in which a hard synchronisation error reaches the
    sender.  An entry [(token, i, real_token)] describes a token to add: the
    message's copy [token] carries the id [i], under which the world holds
    the registered instance [real_token].  An entry [(token, i)] describes a
    token to remove: it was removed from the world, still carries its id
    [i], and that id is free. *)
Definition added_ok (s : Store) (entry : nat * Z * nat) : Prop :=
  let '(token, i, real_token) := entry in
  (∃ t, heap s !! token = Some t ∧ id t = Some i) ∧
  world s !! i = Some real_token ∧
  heap s !! real_token = Some (mkToken (Some i) RegisteredInWorld).

Definition removed_ok (s : Store) (entry : nat * Z) : Prop :=
  let '(token, i) := entry in
  heap s !! token = Some (mkToken (Some i) RemovedFromWorld) ∧
  world s !! i = None.

(** The situation before a message is executed.  An entry [(token, i)] of
    the tokens to add is an unregistered token that carries the id [i], which
    is free in the world; an entry [(token, i)] of the tokens to remove is a
    token registered in the world under its id [i]. *)
Definition fresh_ok (s : Store) (entry : nat * Z) : Prop :=
  let '(token, i) := entry in
  heap s !! token = Some (mkToken (Some i) Unregistered) ∧
  world s !! i = None.

Definition registered_ok (s : Store) (entry : nat * Z) : Prop :=
  let '(token, i) := entry in
  heap s !! token = Some (mkToken (Some i) RegisteredInWorld) ∧
  world s !! i = Some token.

(** The store that executing a message leaves behind: the tokens to add
    are registered under their ids, the tokens to remove are detached. *)
Definition as_real (entry : nat * Z) : nat * Z * nat := (entry.1, entry.2, entry.1).

Definition executed (s : Store) (added removed : list (nat * Z)) : Store :=
  foldl undo_added (foldl restore_removed s added) (map as_real removed).

End WorldModel.

(** ** Concrete values and scenarios *)

Module Scenarios.

(** Python values as a caller may pass them: a token, given by the value
    of its [id] attribute, or some other object such as a string. *)
Inductive PyValue : Type :=
| PyToken (id : Z)
| PyStr (text : string).

Definition is_token (v : PyValue) : bool :=
  match v with PyToken _ => true | PyStr _ => false end.

Definition py_id (v : PyValue) : option Z :=
  match v with PyToken i => Some i | PyStr _ => None end.

(** A world and an id factory given by the list of ids they hold; the
    identity handed out by the factory's [get()] comes first. *)
Definition in_world (world : list Z) (v : PyValue) : bool :=
  match v with
  | PyToken i => bool_decide (i ∈ world)
  | PyStr _ => false
  end.

Definition issued (id_factory : Z * list Z) (i : Z) : bool :=
  bool_decide (i ∈ id_factory.2).

Definition unsent : Messages.Message PyValue := Messages.__init__.

Definition sent : Messages.Message PyValue :=
  Messages._set_sender_id 3 (Messages.mkMessage [PyToken 11] [PyToken 12] None None None).

(** A message that adds token 11 and removes token 12. *)
Definition swap_tokens : Messages.Message PyValue :=
  Messages.mkMessage [PyToken 11] [PyToken 12] None None None.

(** A hook that accepts everything, to tell its answer from a structural
    rejection. *)
Definition accept_all (self : Messages.Message PyValue) (world : list Z) (sender : Z)
    : bool := true.

(** A store in which the sender applied a message ahead of the server:
    object 0 is the instance registered under id 10, object 1 the message's
    own copy of that token, and object 2 a token that was removed from the
    world and still carries id 20. *)
Definition raced_store : WorldModel.Store :=
  WorldModel.mkStore
    (<[0%nat := WorldModel.mkToken (Some 10) WorldModel.RegisteredInWorld]>
       (<[1%nat := WorldModel.mkToken (Some 10) WorldModel.Unregistered]>
          (<[2%nat := WorldModel.mkToken (Some 20) WorldModel.RemovedFromWorld]> ∅)))
    (<[10 := 0%nat]> ∅).

Definition raced_message : Messages.Message nat :=
  Messages.mkMessage [1%nat] [2%nat] (Some 1) (Some Messages.HARD_SYNC_ERROR) (Some true).

(** A reset that forgets the id. *)
Definition forget_id (i : option Z) : option Z := None.

(** A locked timer over integer times with one message due in 5. *)
Definition timer_due_in_5 : Messaging.Timer string string Z :=
  Messaging.mkTimer (Messaging.mkForum [] ∅ ∅ [] 1 true) [(5, "tick"%string)].

Definition int_negative (d : Z) : bool := d <? 0.

(** Messages of a game: a class name and a payload; the flavor is the
    class name. *)
Definition GameMessage : Type := string * Z.

(** A locked forum connected to pipe 0, where callback 7 listens to
    ["Move"] messages. *)
Definition listening_forum : Messaging.Forum GameMessage string :=
  Messaging.mkForum [0%nat] ∅ (<["Move"%string := [7%nat]]> ∅) [] 1 true.

(** Pipe 0 hands over the tickers 1, 2, 3 of origin 9 and then ticker 2
    once more; nothing is delivered outwards. *)
Definition duplicate_2 : Messaging.PipeIO GameMessage string :=
  Messaging.mkPipeIO
    (λ pipe target,
       [((1, 9, 1), "Move", ("Move", 1)); ((1, 9, 2), "Move", ("Move", 2));
        ((1, 9, 3), "Move", ("Move", 3)); ((1, 9, 2), "Move", ("Move", 2))]%string)
    (λ pipe, []).

Definition silent : Messaging.PipeIO GameMessage string :=
  Messaging.mkPipeIO (λ pipe target, []) (λ pipe, []).

(** Callback 7 subscribes and a message is published; the forum is then
    unlocked, callback 8 subscribes, and a lock, publish, update cycle
    follows. *)
Definition resubscribe_after_unlock : list (Messaging.Op GameMessage string) :=
  [Messaging.DoSubscribe "Move" 7%nat; Messaging.DoLock;
   Messaging.DoPublish ("Move", 1); Messaging.DoUnlock;
   Messaging.DoSubscribe "Move" 8%nat; Messaging.DoLock;
   Messaging.DoPublish ("Move", 2); Messaging.DoUpdate silent]%string.

(** A store with an unregistered token 3 that carries id 30 and a token 4
    that was never given an id, and a message that adds both. *)
Definition store_with_unnumbered_token : WorldModel.Store :=
  WorldModel.mkStore
    (<[3%nat := WorldModel.mkToken (Some 30) WorldModel.Unregistered]>
       (<[4%nat := WorldModel.mkToken None WorldModel.Unregistered]> ∅))
    ∅.

Definition add_3_and_4 : Messages.Message nat :=
  Messages.mkMessage [3%nat; 4%nat] [] None None None.

(** A locked forum on pipe 0 with one local publication waiting, and a
    pipe that hands over one packet tagged with target 4. *)
Definition forum_with_local_message : Messaging.Forum GameMessage string :=
  Messaging.mkForum [0%nat] ∅ ∅ [(None, None, ("Move"%string, 5))] 1 true.

Definition retargeting : Messaging.PipeIO GameMessage string :=
  Messaging.mkPipeIO
    (λ pipe target, [((4, 9, 1), "Move", ("Move", 1))]%string)
    (λ pipe, []).

(** A pipe that hands over the tickers 1, 2, 3 of origin 9 and reports the
    delivery of ticker 2 of the same origin. *)
Definition delivers_2 : Messaging.PipeIO GameMessage string :=
  Messaging.mkPipeIO
    (λ pipe target,
       [((1, 9, 1), "Move", ("Move", 1)); ((1, 9, 2), "Move", ("Move", 2));
        ((1, 9, 3), "Move", ("Move", 3))]%string)
    (λ pipe, [((1, 9, 2), "Move", ("Move", 2))]%string).

(** A forum that has seen ticker 3 of origin 9. *)
Definition forum_at_3 : Messaging.Forum GameMessage string :=
  Messaging.mkForum [0%nat] (<[9 := 3]> ∅) ∅ [] 1 true.

(** A world in mid-game: the number is 7, between the bounds 0 and 10. *)
Definition mid_game : GuessMyNumber.World := GuessMyNumber.mkWorld 7 0 10 0 false.

Definition three_guesses : list GuessMyNumber.GuessNumber :=
  [GuessMyNumber.mkGuessNumber 1 3; GuessMyNumber.mkGuessNumber 2 9;
   GuessMyNumber.mkGuessNumber 1 7].

(** A computer player with id 2 whose timer stands at 1. *)
Definition ai_player : GuessMyNumber.AiActor Z := GuessMyNumber.mkAiActor 2 1.

(** Before a message is executed: token 1 is unregistered with id 10,
    token 2 is registered in the world under id 20; the message adds the
    first and removes the second. *)
Definition store_before_swap : WorldModel.Store :=
  WorldModel.mkStore
    (<[1%nat := WorldModel.mkToken (Some 10) WorldModel.Unregistered]>
       (<[2%nat := WorldModel.mkToken (Some 20) WorldModel.RegisteredInWorld]> ∅))
    (<[20 := 2%nat]> ∅).

Definition swap_1_for_2 : Messages.Message nat :=
  Messages.mkMessage [1%nat] [2%nat] None None None.

End Scenarios.

(** * Properties *)

(** ** Messages: token lists, sender and error state *)

Section MessageFacts.
Import Messages.
Context {V : Type}.
Variable is_token : V → bool.

Lemma was_sent_spec (m : Message V) : was_sent m = true ↔ is_Some (sender_id m).
Proof.
  unfold was_sent. destruct (sender_id m) as [i|]; split; intros Hs; try done.
Qed.

Lemma check_not_sent_unsent (m : Message V) :
  was_sent m = false → check_not_sent m = (m, Return tt).
Proof. intros Hs. unfold check_not_sent, bind, gets. by rewrite Hs. Qed.

Lemma check_not_sent_sent (m : Message V) :
  was_sent m = true → check_not_sent m = (m, Raise MessageAlreadySent).
Proof. intros Hs. unfold check_not_sent, bind, gets. by rewrite Hs. Qed.

Lemma require_token_ok (v : V) (m : Message V) :
  is_token v = true → require_token is_token v m = (m, Return tt).
Proof. intros Hv. unfold require_token. by rewrite Hv. Qed.

Lemma require_token_fails (v : V) (m : Message V) :
  is_token v = false → require_token is_token v m = (m, Raise ApiUsageError).
Proof. intros Hv. unfold require_token. by rewrite Hv. Qed.

(** The plural operations in closed form. *)
Lemma add_tokens_eq (tokens : list V) (m : Message V) :
  add_tokens tokens m =
    if was_sent m then (m, Raise MessageAlreadySent)
    else (set_tokens_to_add (tokens_to_add m ++ tokens) m, Return tt).
Proof.
  unfold add_tokens, bind. destruct (was_sent m) eqn:Hs.
  - by rewrite check_not_sent_sent.
  - by rewrite check_not_sent_unsent.
Qed.

Lemma remove_tokens_eq (tokens : list V) (m : Message V) :
  remove_tokens tokens m =
    if was_sent m then (m, Raise MessageAlreadySent)
    else (set_tokens_to_remove (tokens_to_remove m ++ tokens) m, Return tt).
Proof.
  unfold remove_tokens, bind. destruct (was_sent m) eqn:Hs.
  - by rewrite check_not_sent_sent.
  - by rewrite check_not_sent_unsent.
Qed.

(** The singular operations in closed form: the token test comes first. *)
Lemma add_token_eq (token : V) (m : Message V) :
  add_token is_token token m =
    if is_token token then add_tokens [token] m else (m, Raise ApiUsageError).
Proof.
  unfold add_token, add_tokens, bind at 1. destruct (is_token token) eqn:Ht.
  - by rewrite require_token_ok.
  - by rewrite require_token_fails.
Qed.

Lemma remove_token_eq (token : V) (m : Message V) :
  remove_token is_token token m =
    if is_token token then remove_tokens [token] m else (m, Raise ApiUsageError).
Proof.
  unfold remove_token, remove_tokens, bind at 1. destruct (is_token token) eqn:Ht.
  - by rewrite require_token_ok.
  - by rewrite require_token_fails.
Qed.

(** C4: attaching or detaching tokens raises [MessageAlreadySent] exactly
    when the message was sent (its [sender_id] is assigned), and then
    leaves the message, hence both token lists, as it was; on a message
    that was not sent, each operation appends the given token or tokens to
    its list. *)
Theorem token_lists_frozen_once_sent (m : Message V) (token : V) (tokens : list V) :
  is_token token = true →
  (* raises exactly when sent *)
  ((add_token is_token token m).2 = Raise MessageAlreadySent ↔ is_Some (sender_id m)) ∧
  ((add_tokens tokens m).2 = Raise MessageAlreadySent ↔ is_Some (sender_id m)) ∧
  ((remove_token is_token token m).2 = Raise MessageAlreadySent ↔ is_Some (sender_id m)) ∧
  ((remove_tokens tokens m).2 = Raise MessageAlreadySent ↔ is_Some (sender_id m)) ∧
  (* a raise leaves the message untouched *)
  (is_Some (sender_id m) →
     (add_token is_token token m).1 = m ∧ (add_tokens tokens m).1 = m ∧
     (remove_token is_token token m).1 = m ∧ (remove_tokens tokens m).1 = m) ∧
  (* before the message is sent the tokens are appended *)
  (sender_id m = None →
     add_token is_token token m =
       (set_tokens_to_add (tokens_to_add m ++ [token]) m, Return tt) ∧
     add_tokens tokens m =
       (set_tokens_to_add (tokens_to_add m ++ tokens) m, Return tt) ∧
     remove_token is_token token m =
       (set_tokens_to_remove (tokens_to_remove m ++ [token]) m, Return tt) ∧
     remove_tokens tokens m =
       (set_tokens_to_remove (tokens_to_remove m ++ tokens) m, Return tt)).
Proof.
  intros Ht.
  rewrite add_token_eq, remove_token_eq, Ht, !add_tokens_eq, !remove_tokens_eq.
  rewrite <- was_sent_spec.
  destruct (was_sent m) eqn:Hs; simpl.
  - repeat split; try done.
    all: match goal with Hn : sender_id _ = None |- _ =>
           unfold was_sent in *; by rewrite Hn in * end.
  - repeat split; try done.
Qed.

(** C5: the soft and the hard error flag are never both set; a message
    without an [_error_state] attribute (before remote validation) has
    neither; after [_set_error_state] exactly one holds, the soft one exactly
    when the hook [on_check_for_soft_sync_error] answered true. *)
Theorem error_state_exclusive {W} (hook : Message V → W → bool) (world : W) (m : Message V) :
  (has_soft_sync_error m && has_hard_sync_error m = false) ∧
  (has_soft_sync_error (@__init__ V) = false ∧ has_hard_sync_error (@__init__ V) = false) ∧
  (_error_state m = None →
     has_soft_sync_error m = false ∧ has_hard_sync_error m = false) ∧
  (has_soft_sync_error (_set_error_state hook world m) = hook m world) ∧
  (has_hard_sync_error (_set_error_state hook world m) = negb (hook m world)) ∧
  (xorb (has_soft_sync_error (_set_error_state hook world m))
        (has_hard_sync_error (_set_error_state hook world m)) = true).
Proof.
  unfold has_soft_sync_error, has_hard_sync_error, _set_error_state, py_eq_opt,
    SOFT_SYNC_ERROR, HARD_SYNC_ERROR.
  split; [|split; [done|split; [by intros ->|]]].
  - destruct (_error_state m) as [e|]; [|done].
    destruct (e =? 0) eqn:H0; [|done]. apply Z.eqb_eq in H0. by subst.
  - by destruct (hook m world).
Qed.

Lemma unpickled_tokens_to_add (m : Message V) :
  tokens_to_add (unpickled m) = tokens_to_add m.
Proof. unfold unpickled. simpl. by destruct (tokens_to_add m). Qed.

Lemma unpickled_tokens_to_remove (m : Message V) :
  tokens_to_remove (unpickled m) = tokens_to_remove m.
Proof. unfold unpickled. simpl. by destruct (tokens_to_remove m). Qed.

(** C9: [was_sent] answers by the presence of [sender_id] alone and never
    reads [_was_sent].  Unpickling sets [_was_sent] and keeps [sender_id]
    and both token lists (an empty list comes back as an empty list), so a
    message pickled before it was sent is still reported unsent and its token
    lists still accept tokens. *)
Theorem unpickled_unsent_stays_mutable (m : Message V) (token : V) (tokens : list V) :
  sender_id m = None →
  is_token token = true →
  (∀ m' : Message V, was_sent m' = true ↔ is_Some (sender_id m')) ∧
  (∀ (m' : Message V) (flag : option bool),
     was_sent (mkMessage (tokens_to_add m') (tokens_to_remove m')
                 (sender_id m') (_error_state m') flag) = was_sent m') ∧
  _was_sent (unpickled m) = Some true ∧
  was_sent (unpickled m) = false ∧
  tokens_to_add (unpickled m) = tokens_to_add m ∧
  tokens_to_remove (unpickled m) = tokens_to_remove m ∧
  (tokens_to_add m = [] → tokens_to_add (unpickled m) = []) ∧
  (tokens_to_remove m = [] → tokens_to_remove (unpickled m) = []) ∧
  add_token is_token token (unpickled m) =
    (set_tokens_to_add (tokens_to_add m ++ [token]) (unpickled m), Return tt) ∧
  add_tokens tokens (unpickled m) =
    (set_tokens_to_add (tokens_to_add m ++ tokens) (unpickled m), Return tt) ∧
  remove_token is_token token (unpickled m) =
    (set_tokens_to_remove (tokens_to_remove m ++ [token]) (unpickled m), Return tt) ∧
  remove_tokens tokens (unpickled m) =
    (set_tokens_to_remove (tokens_to_remove m ++ tokens) (unpickled m), Return tt).
Proof.
  intros Hunsent Ht.
  assert (Hs : was_sent (unpickled m) = false).
  { unfold unpickled, was_sent. simpl. by rewrite Hunsent. }
  rewrite add_token_eq, remove_token_eq, Ht, !add_tokens_eq, !remove_tokens_eq, Hs.
  rewrite !unpickled_tokens_to_add, !unpickled_tokens_to_remove.
  split; [apply was_sent_spec|].
  repeat split; try done.
Qed.

(** C10: on a message that was not sent, the singular operations reject a
    value that is not a token with a contract violation and leave the message
    alone, whereas the plural operations make no such test and append the
    value. *)
Theorem plural_operations_skip_token_check (m : Message V) (v : V) :
  sender_id m = None →
  is_token v = false →
  add_token is_token v m = (m, Raise ApiUsageError) ∧
  remove_token is_token v m = (m, Raise ApiUsageError) ∧
  add_tokens [v] m = (set_tokens_to_add (tokens_to_add m ++ [v]) m, Return tt) ∧
  remove_tokens [v] m = (set_tokens_to_remove (tokens_to_remove m ++ [v]) m, Return tt).
Proof.
  intros Hunsent Hv.
  assert (Hs : was_sent m = false) by (unfold was_sent; by rewrite Hunsent).
  rewrite add_token_eq, remove_token_eq, Hv, add_tokens_eq, remove_tokens_eq, Hs.
  done.
Qed.

End MessageFacts.

(** ** Messages: the structural check *)

Section CheckFacts.
Import Messages.
Context {V W F Id : Type}.
Variable world_contains : W → V → bool.
Variable token_id : V → option Id.
Variable factory_contains : F → Id → bool.
Variable factory_get : F → Z.
Variable on_check : Message V → W → Z → bool.

Local Abbreviation addable := (Messages.addable world_contains token_id factory_contains).

Lemma forallb_false_Exists {A} (p : A → bool) (l : list A) :
  forallb p l = false ↔ Exists (λ x, p x = false) l.
Proof.
  induction l as [|x l IH]; simpl.
  - split; [done|]. intros HE. inversion HE.
  - rewrite andb_false_iff, IH. split.
    + intros [Hx|Hl]; [by left|by right].
    + intros HE. inversion HE; subst; [by left|by right].
Qed.

Lemma forallb_true_Forall {A} (p : A → bool) (l : list A) :
  forallb p l = true ↔ Forall (λ x, p x = true) l.
Proof.
  induction l as [|x l IH]; simpl.
  - split; [constructor|done].
  - rewrite andb_true_iff, IH. split.
    + intros [Hx Hl]. by constructor.
    + intros HF. by inversion HF; subst.
Qed.

Lemma check_tokens_to_add_eq (world : W) (id_factory : F) (tokens : list V)
    (log : list (HookCall W)) :
  Forall (λ token, is_Some (token_id token)) tokens →
  check_tokens_to_add world_contains token_id factory_contains world id_factory tokens log =
    (log, Return (if forallb (addable world id_factory) tokens then None else Some false)).
Proof.
  induction 1 as [|token rest [id Hid] _ IH]; simpl; [done|].
  unfold Messages.addable at 1. rewrite Hid.
  destruct (world_contains world token); simpl; [done|].
  destruct (factory_contains id_factory id); simpl; [|done].
  apply IH.
Qed.

Lemma check_tokens_to_remove_eq (world : W) (tokens : list V) (log : list (HookCall W)) :
  check_tokens_to_remove world_contains world tokens log =
    (log, Return (if forallb (world_contains world) tokens then None else Some false)).
Proof.
  induction tokens as [|token rest IH]; simpl; [done|].
  destruct (world_contains world token); simpl; [|done].
  apply IH.
Qed.

(** [_check] in closed form, for token lists whose members all have an
    [id] attribute. *)
Lemma _check_eq (m : Message V) (world : W) (id_factory : F) (log : list (HookCall W)) :
  Forall (λ token, is_Some (token_id token)) (tokens_to_add m) →
  _check world_contains token_id factory_contains factory_get on_check m world id_factory log =
    if forallb (addable world id_factory) (tokens_to_add m) &&
       forallb (world_contains world) (tokens_to_remove m)
    then (log ++ [CallOnCheck world (factory_get id_factory)],
          Return (on_check m world (factory_get id_factory)))
    else (log, Return false).
Proof.
  intros Hids. unfold _check, bind at 1.
  rewrite check_tokens_to_add_eq by done.
  destruct (forallb (addable world id_factory) (tokens_to_add m)); simpl; [|done].
  unfold bind at 1. rewrite check_tokens_to_remove_eq.
  by destruct (forallb (world_contains world) (tokens_to_remove m)).
Qed.

(** C2: [_check] returns false, with the hook [on_check] not called (the
    call log is unchanged), as soon as a token to add is already in the
    world, or carries an id that the id factory does not contain, or a token
    to remove is not in the world; when none of this happens [on_check] is
    called exactly once and its answer is returned. *)
Theorem check_structural_before_hook (m : Message V) (world : W) (id_factory : F)
    (log : list (HookCall W)) :
  Forall (λ token, is_Some (token_id token)) (tokens_to_add m) →
  ((Exists (λ token, world_contains world token = true) (tokens_to_add m) ∨
    Exists (λ token, ∃ id, token_id token = Some id ∧
                           factory_contains id_factory id = false) (tokens_to_add m) ∨
    Exists (λ token, world_contains world token = false) (tokens_to_remove m)) →
   _check world_contains token_id factory_contains factory_get on_check m world id_factory log =
     (log, Return false)) ∧
  (Forall (λ token, world_contains world token = false) (tokens_to_add m) →
   Forall (λ token, ∀ id, token_id token = Some id →
                          factory_contains id_factory id = true) (tokens_to_add m) →
   Forall (λ token, world_contains world token = true) (tokens_to_remove m) →
   _check world_contains token_id factory_contains factory_get on_check m world id_factory log =
     (log ++ [CallOnCheck world (factory_get id_factory)],
      Return (on_check m world (factory_get id_factory)))).
Proof.
  intros Hids. rewrite _check_eq by done. split.
  - intros Hbad.
    assert (Hf : forallb (addable world id_factory) (tokens_to_add m) &&
                 forallb (world_contains world) (tokens_to_remove m) = false);
      [|by rewrite Hf].
    apply andb_false_iff.
    destruct Hbad as [Hin|[Hid|Hout]].
    + left. apply forallb_false_Exists.
      eapply Exists_impl; [exact Hin|]. intros token Hc. unfold Messages.addable. by rewrite Hc.
    + left. apply forallb_false_Exists.
      eapply Exists_impl; [exact Hid|]. intros token (id & Hi & Hc).
      unfold Messages.addable. rewrite Hi, Hc. apply andb_false_r.
    + right. by apply forallb_false_Exists.
  - intros Hfresh Hissued Hpresent.
    assert (Ht : forallb (addable world id_factory) (tokens_to_add m) &&
                 forallb (world_contains world) (tokens_to_remove m) = true);
      [|by rewrite Ht].
    apply andb_true_iff. split.
    + apply forallb_true_Forall.
      rewrite Forall_forall in *. intros token Hin.
      destruct (Hids token Hin) as [id Hi].
      unfold Messages.addable. rewrite (Hfresh token Hin), Hi. simpl.
      by apply (Hissued token Hin).
    + by apply forallb_true_Forall.
Qed.

End CheckFacts.

(** ** Forum: ordering of incoming packets *)

Section ForumFacts.
Import Messaging.
Context {Msg Flavor : Type} `{Countable Flavor}.
Variable type : Msg → Flavor.

Local Abbreviation Forum := (Messaging.Forum Msg Flavor).

Lemma accept_packet_newer (pipe : Pipe) (self : Forum) (local_target tg origin ticker : Z)
    (flavor : Flavor) (message : Msg) :
  ticker > seen self origin →
  accept_packet pipe (self, local_target) ((tg, origin, ticker), flavor, message) =
    (set_history (<[origin := ticker]> (history self))
       (put (Some pipe, Some (tg, origin, ticker), message) self), tg).
Proof.
  intros Hgt. unfold accept_packet, seen in *.
  destruct (Z.gtb_spec ticker (default 0 (history self !! origin))); [done|lia].
Qed.

Lemma accept_packet_stale (pipe : Pipe) (self : Forum) (local_target tg origin ticker : Z)
    (flavor : Flavor) (message : Msg) :
  ticker ≤ seen self origin →
  accept_packet pipe (self, local_target) ((tg, origin, ticker), flavor, message) = (self, tg).
Proof.
  intros Hle. unfold accept_packet, seen in *.
  destruct (Z.gtb_spec ticker (default 0 (history self !! origin))); [lia|done].
Qed.

(** One packet moves the ticker of its origin to the larger of the old
    and the new one and leaves the other origins alone. *)
Lemma accept_packet_seen (pipe : Pipe) (st : Forum * Z) (packet : Packet Msg Flavor) (o : Z) :
  seen (accept_packet pipe st packet).1 o =
    foldl Z.max (seen st.1 o) (tickers_of o [packet]).
Proof.
  destruct st as [self t], packet as [[[[tg origin] ticker] flavor] message].
  destruct (Z.le_gt_cases ticker (seen self origin)) as [Hle|Hgt].
  - rewrite accept_packet_stale by done. simpl.
    case_decide; simpl; [subst; lia|done].
  - rewrite accept_packet_newer by lia. unfold seen in *. simpl.
    case_decide; simpl.
    + subst. rewrite lookup_insert_eq. simpl. lia.
    + by rewrite lookup_insert_ne.
Qed.

Lemma tickers_of_cons (o : Z) (packet : Packet Msg Flavor) (packets : list (Packet Msg Flavor)) :
  tickers_of o (packet :: packets) = tickers_of o [packet] ++ tickers_of o packets.
Proof. unfold tickers_of. simpl. by rewrite app_nil_r. Qed.

(** After a whole batch, the ticker of every origin is the largest of
    what was recorded before and what the batch carried for it. *)
Lemma accept_packets_seen (pipe : Pipe) (packets : list (Packet Msg Flavor)) (st : Forum * Z) (o : Z) :
  seen (foldl (accept_packet pipe) st packets).1 o =
    foldl Z.max (seen st.1 o) (tickers_of o packets).
Proof.
  revert st. induction packets as [|packet packets IH]; intros st; [done|].
  rewrite tickers_of_cons, foldl_app. simpl foldl at 1.
  by rewrite IH, accept_packet_seen.
Qed.

(** A locked forum does not fail its assertion: [update] runs its three
    phases, the first of which is the loop over the incoming packets. *)
Lemma update_locked (io : PipeIO Msg Flavor) (self : Forum) :
  locked self = true →
  ∃ self1 target1 self3 target3,
    receive_incoming io (self, target self) = (self1, target1) ∧
    flush_outgoing io (set_publications [] self1, target1) = (self3, target3) ∧
    update type io self = (self3, Return (drain type self1 target1 (publications self1))).
Proof.
  intros Hl. unfold update. rewrite Hl. simpl.
  destruct (receive_incoming io (self, target self)) as [self1 target1] eqn:Hr.
  destruct (flush_outgoing io (set_publications [] self1, target1)) as [self3 target3] eqn:Hf.
  exists self1, target1, self3, target3. by rewrite Hf.
Qed.


(** ** Forum: unlock is a full reset *)

Lemma foldl_invariant {A B} (P : A → Prop) (f : A → B → A) (l : list B) (a : A) :
  (∀ a b, b ∈ l → P a → P (f a b)) → P a → P (foldl f a l).
Proof.
  revert a. induction l as [|b l IH]; intros a Hstep Ha; [done|].
  simpl. apply IH.
  - intros a' b' Hb'. apply Hstep. by right.
  - apply Hstep; [by left|done].
Qed.

Lemma accept_packet_received (io : PipeIO Msg Flavor) (self0 : Forum) (pipe : Pipe)
    (st : Forum * Z) (packet : Packet Msg Flavor) (t : Z) :
  packet ∈ receive io pipe t →
  received_from io self0 st → received_from io self0 (accept_packet pipe st packet).
Proof.
  intros Hin (Hsub & Hpipes & Hpend).
  destruct st as [self lt], packet as [[[[tg origin] ticker] flavor] message].
  unfold accept_packet. destruct (ticker >? _); [|done].
  split; [done|split; [done|]]. simpl.
  intros message' (sender & tag & Hmem). simpl in Hmem.
  apply elem_of_app in Hmem as [Hold|Hnew].
  - apply Hpend. by exists sender, tag.
  - apply list_elem_of_singleton in Hnew. inversion Hnew; subst.
    right. by exists pipe, t, (tg, origin, ticker), flavor.
Qed.

Lemma receive_incoming_received (io : PipeIO Msg Flavor) (self : Forum) (t : Z) :
  received_from io self (receive_incoming io (self, t)).
Proof.
  unfold receive_incoming.
  apply (foldl_invariant (received_from io self)).
  - intros st pipe _ Hst. unfold receive_from.
    apply (foldl_invariant (received_from io self)); [|done].
    intros st' packet Hin. by apply accept_packet_received with (t := st.2).
  - repeat split. intros message Hp. by left.
Qed.

Lemma note_delivered_keeps (st : Forum * Z) (packet : Packet Msg Flavor) :
  subscriptions (note_delivered st packet).1 = subscriptions st.1 ∧
  publications (note_delivered st packet).1 = publications st.1.
Proof. by destruct st as [self lt], packet as [[[[tg origin] ticker] flavor] message]. Qed.

Lemma flush_outgoing_keeps (io : PipeIO Msg Flavor) (st : Forum * Z) :
  subscriptions (flush_outgoing io st).1 = subscriptions st.1 ∧
  publications (flush_outgoing io st).1 = publications st.1.
Proof.
  unfold flush_outgoing.
  apply (foldl_invariant (λ st', subscriptions st'.1 = subscriptions st.1 ∧
                                 publications st'.1 = publications st.1)); [|done].
  intros st1 pipe _ Hst1.
  apply (foldl_invariant (λ st', subscriptions st'.1 = subscriptions st.1 ∧
                                 publications st'.1 = publications st.1)); [|done].
  intros st2 packet _ [Hs Hp].
  destruct (note_delivered_keeps st2 packet) as [Hs' Hp']. by rewrite Hs', Hp'.
Qed.

(** Callbacks are called only if subscribed, and only with messages taken
    from the queue. *)
Lemma drain_called (self : Forum) (t : Z) (queue : list (Publication Msg))
    (callback : Callback) (message : Msg) :
  Called callback message ∈ drain type self t queue →
  subscribed self callback ∧ ∃ sender tag, (sender, tag, message) ∈ queue.
Proof.
  induction queue as [|[[sender tag] message'] queue IH]; simpl.
  - intros Hin. by apply elem_of_nil in Hin.
  - rewrite !elem_of_app. intros [[Hcb|Hpipe]|Hrest].
    + apply list_elem_of_fmap in Hcb as (callback' & Heq & Hin).
      inversion Heq; subst. split.
      * exists (type message').
        destruct (subscriptions self !! type message') as [callbacks|] eqn:Hl;
          simpl in Hin; [by exists callbacks|by apply elem_of_nil in Hin].
      * exists sender, tag. by left.
    + exfalso. apply list_elem_of_In, in_flat_map in Hpipe as (pipe & _ & Hev).
      destruct (is_not pipe sender); [|done].
      destruct tag; simpl in Hev; destruct Hev as [Hev|[]]; discriminate.
    + destruct (IH Hrest) as (Hs & sender' & tag' & Hq).
      split; [done|]. exists sender', tag'. by right.
Qed.

(** One method call: whoever is subscribed afterwards was subscribed before
    or is subscribed by this call, and likewise for pending messages; a
    callback that is called was subscribed before the call, with a message
    that was pending or just came from a pipe. *)
Lemma step_subscribed (op : Op Msg Flavor) (self : Forum) (callback : Callback) :
  subscribed (step type op self).1 callback →
  subscribed self callback ∨ ∃ flavor, op = DoSubscribe flavor callback.
Proof.
  destruct op as [flavor cb|message| | |new_pipes|io|]; simpl.
  - unfold subscribe, bind, gets. destruct (locked self); [by left|]. simpl.
    intros (flavor' & callbacks & Hl & Hin).
    destruct (subscriptions self !! flavor) as [old|] eqn:Hold; simpl in Hl.
    + destruct (decide (flavor = flavor')) as [->|Hne].
      * rewrite lookup_insert_eq in Hl. inversion Hl; subst.
        apply elem_of_app in Hin as [Hin|Hin].
        -- left. by exists flavor', old.
        -- apply list_elem_of_singleton in Hin as ->. right. by exists flavor'.
      * rewrite lookup_insert_ne in Hl by done. left. by exists flavor', callbacks.
    + destruct (decide (flavor = flavor')) as [->|Hne].
      * rewrite lookup_insert_eq in Hl. inversion Hl; subst.
        apply list_elem_of_singleton in Hin as ->. right. by exists flavor'.
      * rewrite lookup_insert_ne in Hl by done. left. by exists flavor', callbacks.
  - by left.
  - by left.
  - intros (flavor & callbacks & Hl & _). simpl in Hl. by rewrite lookup_empty in Hl.
  - unfold setup, bind, gets. destruct (locked self); by left.
  - unfold update. destruct (locked self); simpl; [|by left].
    pose proof (receive_incoming_received io self (target self)) as (Hsub & _ & _).
    destruct (receive_incoming io (self, target self)) as [self1 target1]. simpl in Hsub.
    pose proof (flush_outgoing_keeps io (set_publications [] self1, target1)) as [Hs _].
    destruct (flush_outgoing io (set_publications [] self1, target1)) as [self3 target3].
    simpl in *. intros (flavor & callbacks & Hl & Hin). left.
    exists flavor, callbacks. by rewrite <- Hsub, <- Hs.
  - intros (flavor & callbacks & Hl & _). simpl in Hl. by rewrite lookup_empty in Hl.
Qed.

Lemma step_pending (op : Op Msg Flavor) (self : Forum) (message : Msg) :
  pending_message (step type op self).1 message →
  pending_message self message ∨ op = DoPublish message.
Proof.
  destruct op as [flavor cb|message'| | |new_pipes|io|]; simpl.
  - unfold subscribe, bind, gets. destruct (locked self); [by left|]. simpl.
    intros Hp. left. by destruct (subscriptions self !! flavor).
  - intros (sender & tag & Hin). simpl in Hin.
    apply elem_of_app in Hin as [Hin|Hin].
    + left. by exists sender, tag.
    + apply list_elem_of_singleton in Hin. inversion Hin. by right.
  - by left.
  - intros (sender & tag & Hin). simpl in Hin. by apply elem_of_nil in Hin.
  - unfold setup, bind, gets. destruct (locked self); by left.
  - unfold update. destruct (locked self); simpl; [|by left].
    destruct (receive_incoming io (self, target self)) as [self1 target1].
    pose proof (flush_outgoing_keeps io (set_publications [] self1, target1)) as [_ Hp].
    destruct (flush_outgoing io (set_publications [] self1, target1)) as [self3 target3].
    simpl in *. intros (sender & tag & Hin). rewrite Hp in Hin.
    by apply elem_of_nil in Hin.
  - intros (sender & tag & Hin). simpl in Hin. by apply elem_of_nil in Hin.
Qed.

Lemma step_called (op : Op Msg Flavor) (self : Forum) (callback : Callback) (message : Msg) :
  Called callback message ∈ (step type op self).2 →
  subscribed self callback ∧
  (pending_message self message ∨ ∃ io, op = DoUpdate io ∧ from_pipes io message).
Proof.
  destruct op as [flavor cb|message'| | |new_pipes|io|]; simpl;
    try (intros Hin; by apply elem_of_nil in Hin).
  - unfold setup, bind, gets. destruct (locked self); simpl.
    + intros Hin. by apply elem_of_nil in Hin.
    + intros Hin. apply list_elem_of_fmap in Hin as (pipe & Heq & _). discriminate.
  - unfold update. destruct (locked self); simpl;
      [|intros Hin; by apply elem_of_nil in Hin].
    pose proof (receive_incoming_received io self (target self)) as (Hsub & _ & Hpend).
    destruct (receive_incoming io (self, target self)) as [self1 target1].
    destruct (flush_outgoing io (set_publications [] self1, target1)) as [self3 target3].
    simpl in *. intros Hin.
    apply drain_called in Hin as ((flavor & callbacks & Hl & Hcb) & sender & tag & Hq).
    split.
    + exists flavor, callbacks. by rewrite <- Hsub.
    + destruct (Hpend message) as [Hold|Hnew]; [by exists sender, tag|by left|].
      right. by exists io.
Qed.

(** A whole program: a callback that is called was subscribed at the start
    or is subscribed by the program, and the message it is called with was
    pending at the start, or is published by the program, or comes from a
    pipe during one of its updates. *)
Lemma run_called (ops : list (Op Msg Flavor)) (self : Forum) (callback : Callback)
    (message : Msg) :
  Called callback message ∈ (run type ops self).2 →
  (subscribed self callback ∨ ∃ flavor, DoSubscribe flavor callback ∈ ops) ∧
  (pending_message self message ∨ DoPublish message ∈ ops ∨
   ∃ io, DoUpdate io ∈ ops ∧ from_pipes io message).
Proof.
  revert self. induction ops as [|op ops IH]; intros self; simpl.
  - intros Hin. by apply elem_of_nil in Hin.
  - pose proof (step_subscribed op self callback) as Hsub.
    pose proof (step_pending op self message) as Hpend.
    pose proof (step_called op self callback message) as Hcall.
    destruct (step type op self) as [self1 events1].
    specialize (IH self1).
    destruct (run type ops self1) as [self2 events2]. simpl in *.
    intros Hin. apply elem_of_app in Hin as [Hin|Hin].
    + destruct (Hcall Hin) as [Hs Hm]. split; [by left|].
      destruct Hm as [Hm|(io & -> & Hm)]; [by left|].
      right; right. exists io. split; [by left|done].
    + destruct (IH Hin) as [Hs Hm]. split.
      * destruct Hs as [Hs|(flavor & Hs)].
        -- destruct (Hsub Hs) as [Hs'|(flavor & ->)]; [by left|].
           right. exists flavor. by left.
        -- right. exists flavor. by right.
      * destruct Hm as [Hm|[Hm|(io & Hio & Hm)]].
        -- destruct (Hpend Hm) as [Hm'| ->]; [by left|]. right; left. by left.
        -- right; left. by right.
        -- right; right. exists io. split; [by right|done].
Qed.

(** C6: [unlock] leaves no subscription and no pending publication behind.
    In whatever the caller does with the forum afterwards (locking,
    publishing, updating, in any order and number), a callback is called only
    if it is subscribed again after the [unlock], and only with a message
    that is published or received after the [unlock]: nothing subscribed or
    published before survives. *)
Theorem unlock_is_full_reset (self : Forum) (ops : list (Op Msg Flavor))
    (callback : Callback) (message : Msg) :
  subscriptions (unlock self) = ∅ ∧
  publications (unlock self) = [] ∧
  locked (unlock self) = false ∧
  (Called callback message ∈ (run type ops (unlock self)).2 →
     (∃ flavor, DoSubscribe flavor callback ∈ ops) ∧
     (DoPublish message ∈ ops ∨ ∃ io, DoUpdate io ∈ ops ∧ from_pipes io message)).
Proof.
  split; [done|split; [done|split; [done|]]].
  intros Hcalled. apply run_called in Hcalled as [Hs Hm]. split.
  - destruct Hs as [(flavor & callbacks & Hl & _)|Hs]; [|done].
    simpl in Hl. by rewrite lookup_empty in Hl.
  - destruct Hm as [(sender & tag & Hin)|Hm]; [|done].
    simpl in Hin. by apply elem_of_nil in Hin.
Qed.

End ForumFacts.

(** ** Timer: deferred publications *)

Section TimerFacts.
Import Messaging.
Context {Msg Flavor : Type} `{Countable Flavor}.
Context {num : Type}.
Variable minus : num → num → num.
Variable negative : num → bool.

Local Abbreviation Timer := (Messaging.Timer Msg Flavor num).

Local Abbreviation overdue := (Messaging.overdue minus negative).
Local Abbreviation still_waiting := (Messaging.still_waiting minus negative).

Lemma reschedule_all (time : num) (packages : list (num * Msg)) (self : Timer) :
  foldl (reschedule minus negative time) self packages =
    mkTimer
      (set_publications
         (publications (forum self) ++
          map (λ package, (None, None, package.2)) (List.filter (overdue time) packages))
         (forum self))
      (pending self ++
       map (λ package, (minus package.1 time, package.2))
           (List.filter (still_waiting time) packages)).
Proof.
  revert self. induction packages as [|[delay message] packages IH]; intros self; simpl.
  - rewrite !app_nil_r. by destruct self as [[] ?].
  - rewrite IH. unfold Messaging.still_waiting, Messaging.overdue, reschedule. simpl.
    destruct (negative (minus delay time)); simpl.
    + unfold publish, put. simpl. by rewrite <- app_assoc.
    + by rewrite <- app_assoc.
Qed.

(** C7, as the code has it: [publish(message, delay)] only appends the
    message to the pending list, the forum's queue is untouched.  A delivery
    tick takes [time] off every pending delay; the messages whose remaining
    delay is negative are put on the forum's queue as local publications, in
    order, and all the others, a remaining delay of zero included, are
    pending again with the decreased delay. *)
Theorem timer_promotes_negative_delays (time delay : num) (message : Msg) (self : Timer) :
  let self' := (Timer_deliver minus negative time self).1 in
  Timer_publish message delay self = mkTimer (forum self) (pending self ++ [(delay, message)]) ∧
  publications (forum self') =
    publications (forum self) ++
    map (λ package, (None, None, package.2)) (List.filter (overdue time) (pending self)) ∧
  pending self' =
    map (λ package, (minus package.1 time, package.2))
        (List.filter (still_waiting time) (pending self)) ∧
  (forum (Timer_deliver minus negative time (Timer_publish message delay (mkTimer (forum self) []))).1,
   pending (Timer_deliver minus negative time (Timer_publish message delay (mkTimer (forum self) []))).1) =
    if negative (minus delay time)
    then (publish message (forum self), [])
    else (forum self, [(minus delay time, message)]).
Proof.
  intros self'. subst self'. unfold Timer_deliver. simpl.
  rewrite !reschedule_all. simpl.
  split; [done|split; [done|split; [done|]]].
  by destruct (negative (minus delay time)).
Qed.

End TimerFacts.

(** ** The number guessing demo *)

Section DemoFacts.
Import GuessMyNumber.

(** C8: a right guess makes the guessing player the winner and ends the
    game; a guess below the number raises the lower bound to the larger of
    the guess and the old bound and leaves winner, upper bound, number and
    the state of the game alone.  With number 7, the guess 7 of player 2
    makes 2 the winner, and the guess 3 within bounds (0, 10) makes the lower
    bound 3. *)
Theorem guess_number_on_execute (self : GuessNumber) (world : World)
    (lower upper old_winner who : Z) (over : bool) :
  (guess self = number world →
     winner (on_execute self world) = player self ∧
     game_over (on_execute self world) = true) ∧
  (guess self < number world →
     lower_bound (on_execute self world) = Z.max (guess self) (lower_bound world) ∧
     winner (on_execute self world) = winner world ∧
     upper_bound (on_execute self world) = upper_bound world ∧
     number (on_execute self world) = number world ∧
     game_over (on_execute self world) = game_over world) ∧
  on_execute (mkGuessNumber 2 7) (mkWorld 7 lower upper old_winner over) =
    mkWorld 7 lower upper 2 true ∧
  on_execute (mkGuessNumber who 3) (mkWorld 7 0 10 old_winner over) =
    mkWorld 7 3 10 old_winner over.
Proof.
  split; [|split; [|done]].
  - intros Hright. unfold on_execute.
    by rewrite (proj2 (Z.eqb_eq _ _) Hright).
  - intros Hlow. unfold on_execute.
    destruct (Z.eqb_spec (guess self) (number world)); [lia|].
    by rewrite (proj2 (Z.ltb_lt _ _) Hlow).
Qed.

End DemoFacts.

(** ** Messages: undoing a message after a hard synchronisation error *)

Section HardSyncFacts.
Import WorldModel.
Variable id_after_reset : option Z → option Z.

#[local] Instance ops : Messages.WorldOps nat (option Z) Store := store_ops id_after_reset.

Lemma bind_Return {S A B} (c : M S A) (k : A → M S B) (s s' : S) (a : A) :
  c s = (s', Return a) → bind c k s = k a s'.
Proof. intros Hc. unfold bind. by rewrite Hc. Qed.

(** The operations of the store, one by one. *)
Lemma load_eq (s : Store) (token : nat) (t : Token) :
  heap s !! token = Some t → load token s = (s, Return t).
Proof. intros Ht. unfold load. by rewrite Ht. Qed.

Lemma token_id_eq (s : Store) (token : nat) (t : Token) :
  heap s !! token = Some t → token_id token s = (s, Return (id t)).
Proof. intros Ht. unfold token_id. by rewrite (bind_Return _ _ _ _ _ (load_eq s token t Ht)). Qed.

Lemma get_token_eq (s : Store) (i : Z) (token : nat) :
  world s !! i = Some token → get_token (Some i) s = (s, Return token).
Proof. intros Hw. unfold get_token. by rewrite Hw. Qed.

Lemma _remove_token_eq (s : Store) (i : Z) (token : nat) :
  heap s !! token = Some (mkToken (Some i) RegisteredInWorld) →
  world s !! i = Some token →
  _remove_token token s =
    (mkStore (<[token := mkToken (Some i) RemovedFromWorld]> (heap s)) (delete i (world s)),
     Return tt).
Proof.
  intros Ht Hw. unfold _remove_token.
  rewrite (bind_Return _ _ _ _ _ (load_eq s token _ Ht)). simpl.
  by rewrite decide_True.
Qed.

Lemma reset_registration_eq (s : Store) (token : nat) (t : Token) :
  heap s !! token = Some t →
  reset_registration id_after_reset token s =
    (set_heap (<[token := mkToken (id_after_reset (id t)) Unregistered]> (heap s)) s, Return tt).
Proof.
  intros Ht. unfold reset_registration.
  by rewrite (bind_Return _ _ _ _ _ (load_eq s token _ Ht)).
Qed.

Lemma set_token_id_eq (s : Store) (token : nat) (t : Token) (i : option Z) :
  heap s !! token = Some t →
  set_token_id token i s =
    (set_heap (<[token := mkToken i (registration t)]> (heap s)) s, Return tt).
Proof.
  intros Ht. unfold set_token_id.
  by rewrite (bind_Return _ _ _ _ _ (load_eq s token _ Ht)).
Qed.

Lemma _add_token_eq (s : Store) (i : Z) (token : nat) :
  heap s !! token = Some (mkToken (Some i) Unregistered) →
  world s !! i = None →
  _add_token token s =
    (mkStore (<[token := mkToken (Some i) RegisteredInWorld]> (heap s))
             (<[i := token]> (world s)), Return tt).
Proof.
  intros Ht Hw. unfold _add_token.
  rewrite (bind_Return _ _ _ _ _ (load_eq s token _ Ht)). simpl.
  by rewrite Hw.
Qed.

(** The two loop bodies of [_handle_hard_sync_error] on the store. *)
Lemma undo_added_step (s : Store) (token : nat) (i : Z) (real_token : nat) :
  added_ok s (token, i, real_token) →
  bind (Messages.token_id token) (λ i',
    bind (Messages.get_token i') (λ real, Messages._remove_token real)) s =
  (undo_added s (token, i, real_token), Return tt).
Proof.
  intros ((t & Ht & Hid) & Hw & Hr). simpl.
  rewrite (bind_Return _ _ _ _ _ (token_id_eq s token t Ht)), Hid.
  rewrite (bind_Return _ _ _ _ _ (get_token_eq s i real_token Hw)).
  by apply _remove_token_eq.
Qed.

Lemma restore_removed_step (s : Store) (token : nat) (i : Z) :
  removed_ok s (token, i) →
  bind (Messages.token_id token) (λ i',
    bind (Messages.reset_registration token) (λ _,
      bind (Messages.set_token_id token i') (λ _, Messages._add_token token))) s =
  (restore_removed s (token, i), Return tt).
Proof.
  intros [Ht Hw]. simpl.
  rewrite (bind_Return _ _ _ _ _ (token_id_eq s token _ Ht)). simpl.
  rewrite (bind_Return _ _ _ _ _ (reset_registration_eq s token _ Ht)). simpl.
  erewrite bind_Return; [|apply set_token_id_eq; simpl; apply lookup_insert_eq].
  simpl. erewrite _add_token_eq; [|simpl; apply lookup_insert_eq|done].
  simpl. by rewrite !insert_insert_eq.
Qed.

(** Undoing one added token keeps the other entries in order, as long as
    their ids differ from the id that was undone. *)
Lemma undo_added_keeps_added (s : Store) (e e' : nat * Z * nat) :
  added_ok s e → added_ok s e' → e.1.2 ≠ e'.1.2 → added_ok (undo_added s e) e'.
Proof.
  destruct e as [[c i] r], e' as [[c' i'] r']. simpl.
  intros (_ & Hw & Hr) ((t' & Ht' & Hid') & Hw' & Hr') Hne.
  assert (r ≠ r') by (intros ->; rewrite Hr in Hr'; congruence).
  split; [|split].
  - destruct (decide (r = c')) as [->|Hrc].
    + rewrite Hr in Ht'. inversion Ht'; subst. simpl in Hid'. congruence.
    + exists t'. by rewrite lookup_insert_ne.
  - by rewrite lookup_delete_ne.
  - by rewrite lookup_insert_ne.
Qed.

Lemma undo_added_keeps_removed (s : Store) (e : nat * Z * nat) (x : nat * Z) :
  added_ok s e → removed_ok s x → removed_ok (undo_added s e) x.
Proof.
  destruct e as [[c i] r], x as [r' i']. simpl.
  intros (_ & Hw & Hr) [Hr' Hw'].
  assert (r ≠ r') by (intros ->; rewrite Hr in Hr'; congruence).
  split.
  - by rewrite lookup_insert_ne.
  - apply lookup_delete_None. by right.
Qed.

Lemma restore_removed_keeps (s : Store) (x x' : nat * Z) :
  removed_ok s x' → x.1 ≠ x'.1 → x.2 ≠ x'.2 → removed_ok (restore_removed s x) x'.
Proof.
  destruct x as [r i], x' as [r' i']. simpl. intros [Hr' Hw'] Hr Hi.
  split; by rewrite lookup_insert_ne.
Qed.

(** The first loop, over the tokens to add. *)
Lemma undo_added_loop (added : list (nat * Z * nat)) (s : Store) :
  NoDup (map (λ e, e.1.2) added) →
  Forall (added_ok s) added →
  for_each (map (λ e, e.1.1) added)
    (λ token, bind (Messages.token_id token) (λ i',
       bind (Messages.get_token i') (λ real, Messages._remove_token real))) s =
  (foldl undo_added s added, Return tt).
Proof.
  revert s. induction added as [|[[c i] r] added IH]; intros s Hnd Hok; [done|].
  apply NoDup_cons in Hnd as [Hi Hnd]. apply Forall_cons in Hok as [He Hok].
  cbn [map for_each foldl fst snd]. unfold bind at 1.
  rewrite (undo_added_step s c i r He). apply IH; [done|].
  rewrite Forall_forall in *. intros e' Hin.
  apply undo_added_keeps_added; [done|by apply Hok|].
  simpl. intros ->. apply Hi. apply list_elem_of_fmap. by exists e'.
Qed.

Lemma undo_added_loop_removed (added : list (nat * Z * nat)) (removed : list (nat * Z))
    (s : Store) :
  NoDup (map (λ e, e.1.2) added) →
  Forall (added_ok s) added →
  Forall (removed_ok s) removed →
  Forall (removed_ok (foldl undo_added s added)) removed.
Proof.
  revert s. induction added as [|[[c i] r] added IH]; intros s Hnd Hok Hrem; [done|].
  apply NoDup_cons in Hnd as [Hi Hnd]. apply Forall_cons in Hok as [He Hok].
  cbn [foldl]. apply IH; [done| |].
  - rewrite Forall_forall in *. intros e' Hin.
    apply undo_added_keeps_added; [done|by apply Hok|].
    simpl. intros ->. apply Hi. apply list_elem_of_fmap. by exists e'.
  - rewrite Forall_forall in *. intros x Hin.
    by apply undo_added_keeps_removed; [|apply Hrem].
Qed.

(** The second loop, over the tokens to remove. *)
Lemma restore_removed_loop (removed : list (nat * Z)) (s : Store) :
  NoDup (map fst removed) →
  NoDup (map snd removed) →
  Forall (removed_ok s) removed →
  for_each (map fst removed)
    (λ token, bind (Messages.token_id token) (λ i',
       bind (Messages.reset_registration token) (λ _,
         bind (Messages.set_token_id token i') (λ _, Messages._add_token token)))) s =
  (foldl restore_removed s removed, Return tt).
Proof.
  revert s. induction removed as [|[r i] removed IH]; intros s Hndr Hndi Hok; [done|].
  apply NoDup_cons in Hndr as [Hr Hndr]. apply NoDup_cons in Hndi as [Hi Hndi].
  apply Forall_cons in Hok as [Hx Hok].
  cbn [map for_each foldl fst]. unfold bind at 1.
  rewrite (restore_removed_step s r i Hx). apply IH; [done|done|].
  rewrite Forall_forall in *. intros x' Hin.
  apply restore_removed_keeps; [by apply Hok| |]; simpl.
  - intros ->. apply Hr. apply list_elem_of_fmap. by exists x'.
  - intros ->. apply Hi. apply list_elem_of_fmap. by exists x'.
Qed.

(** Lookups in the store that the two loops leave behind. *)
Lemma undo_added_world (added : list (nat * Z * nat)) (s : Store) (j : Z) :
  world (foldl undo_added s added) !! j =
    if decide (j ∈ map (λ e, e.1.2) added) then None else world s !! j.
Proof.
  revert s. induction added as [|[[c i] r] added IH]; intros s.
  - done.
  - cbn [foldl map]. rewrite IH. cbn [undo_added world fst snd].
    destruct (decide (j = i)) as [->|Hne].
    + rewrite lookup_delete_eq. rewrite (decide_True (P := i ∈ i :: _)); [|by left].
      by case_decide.
    + rewrite lookup_delete_ne by done.
      case_decide as Hin.
      * rewrite decide_True; [done|by right].
      * rewrite decide_False; [done|]. intros Hin'.
        apply elem_of_cons in Hin' as [?|?]; done.
Qed.

Lemma undo_added_heap_frame (added : list (nat * Z * nat)) (s : Store) (q : nat) :
  q ∉ map (λ e, e.2) added →
  heap (foldl undo_added s added) !! q = heap s !! q.
Proof.
  revert s. induction added as [|[[c i] r] added IH]; intros s Hq; [done|].
  cbn [foldl map] in *. apply not_elem_of_cons in Hq as [Hne Hq].
  rewrite IH by done. simpl in *. by rewrite lookup_insert_ne.
Qed.

Lemma undo_added_heap (added : list (nat * Z * nat)) (s : Store) (c : nat) (i : Z) (r : nat) :
  NoDup (map (λ e, e.2) added) →
  (c, i, r) ∈ added →
  heap (foldl undo_added s added) !! r = Some (mkToken (Some i) RemovedFromWorld).
Proof.
  revert s. induction added as [|[[c' i'] r'] added IH]; intros s Hnd Hin.
  - by apply elem_of_nil in Hin.
  - cbn [foldl map] in *. apply NoDup_cons in Hnd as [Hr Hnd].
    apply elem_of_cons in Hin as [Heq|Hin].
    + inversion Heq; subst. rewrite undo_added_heap_frame by done.
      simpl. by rewrite lookup_insert_eq.
    + by apply IH.
Qed.

Lemma restore_removed_frame (removed : list (nat * Z)) (s : Store) :
  (∀ q, q ∉ map fst removed → heap (foldl restore_removed s removed) !! q = heap s !! q) ∧
  (∀ j, j ∉ map snd removed → world (foldl restore_removed s removed) !! j = world s !! j).
Proof.
  revert s. induction removed as [|[r i] removed IH]; intros s; [done|].
  cbn [foldl map]. destruct (IH (restore_removed s (r, i))) as [IHh IHw].
  split.
  - intros q Hq. simpl in Hq. apply not_elem_of_cons in Hq as [Hne Hq].
    rewrite IHh by done. simpl. by rewrite lookup_insert_ne.
  - intros j Hj. simpl in Hj. apply not_elem_of_cons in Hj as [Hne Hj].
    rewrite IHw by done. simpl. by rewrite lookup_insert_ne.
Qed.

Lemma restore_removed_lookup (removed : list (nat * Z)) (s : Store) (r : nat) (i : Z) :
  NoDup (map fst removed) →
  NoDup (map snd removed) →
  (r, i) ∈ removed →
  world (foldl restore_removed s removed) !! i = Some r ∧
  heap (foldl restore_removed s removed) !! r = Some (mkToken (Some i) RegisteredInWorld).
Proof.
  revert s. induction removed as [|[r' i'] removed IH]; intros s Hndr Hndi Hin.
  - by apply elem_of_nil in Hin.
  - cbn [foldl map] in *. simpl in Hndr, Hndi.
    apply NoDup_cons in Hndr as [Hr Hndr]. apply NoDup_cons in Hndi as [Hi Hndi].
    apply elem_of_cons in Hin as [Heq|Hin].
    + inversion Heq; subst.
      destruct (restore_removed_frame removed (restore_removed s (r', i'))) as [Hh Hw].
      rewrite Hh, Hw by done. simpl. by rewrite !lookup_insert_eq.
    + by apply IH.
Qed.

(** Distinct ids are held by distinct instances, and an instance that is
    registered is not one that was removed. *)
Lemma added_real_tokens_NoDup (added : list (nat * Z * nat)) (s : Store) :
  NoDup (map (λ e, e.1.2) added) →
  Forall (added_ok s) added →
  NoDup (map (λ e, e.2) added).
Proof.
  induction added as [|[[c i] r] added IH]; intros Hnd Hok; [constructor|].
  cbn [map] in *. simpl in Hnd.
  apply NoDup_cons in Hnd as [Hi Hnd]. apply Forall_cons in Hok as [(_ & _ & Hr) Hok].
  apply NoDup_cons. split; [|by apply IH].
  intros Hin. apply list_elem_of_fmap in Hin as ([[c' i'] r'] & Heq & Hin).
  simpl in Heq. subst r'.
  rewrite Forall_forall in Hok. destruct (Hok _ Hin) as (_ & _ & Hr').
  rewrite Hr in Hr'. inversion Hr'; subst.
  apply Hi. apply list_elem_of_fmap. by exists (c', i', r).
Qed.

Lemma added_apart_from_removed (added : list (nat * Z * nat)) (removed : list (nat * Z))
    (s : Store) (c : nat) (i : Z) (r : nat) :
  Forall (added_ok s) added →
  Forall (removed_ok s) removed →
  (c, i, r) ∈ added →
  (r ∉ map fst removed) ∧ (i ∉ map snd removed).
Proof.
  rewrite !Forall_forall. intros Hok Hrem Hin.
  destruct (Hok _ Hin) as (_ & Hw & Hr).
  split; intros Hx; apply list_elem_of_fmap in Hx as ([r' i'] & Heq & Hin');
    simpl in Heq; subst; destruct (Hrem _ Hin') as [Hr' Hw']; congruence.
Qed.

(** C3: [_handle_hard_sync_error] undoes the structural effects of the
    message.  For every token to add, the instance that the world holds
    under the token's id is removed from the world; every token to remove
    has its registration reset, gets its original id back and is added to
    the world again.  The hook [on_hard_sync_error] runs after both loops,
    on the store they leave behind, and the hook of the base class raises
    [UnhandledSyncError] there. *)
Theorem hard_sync_error_reverses (hook : Messages.Message nat → M Store unit)
    (m : Messages.Message nat) (s : Store)
    (added : list (nat * Z * nat)) (removed : list (nat * Z)) :
  Messages.tokens_to_add m = map (λ e, e.1.1) added →
  Messages.tokens_to_remove m = map fst removed →
  NoDup (map (λ e, e.1.2) added) →
  Forall (added_ok s) added →
  NoDup (map fst removed) →
  NoDup (map snd removed) →
  Forall (removed_ok s) removed →
  let s' := reversed s added removed in
  Messages._handle_hard_sync_error hook m s = hook m s' ∧
  Messages._handle_hard_sync_error Messages.default_on_hard_sync_error m s =
    (s', Raise UnhandledSyncError) ∧
  (∀ c i r, (c, i, r) ∈ added →
     world s' !! i = None ∧
     heap s' !! r = Some (mkToken (Some i) RemovedFromWorld)) ∧
  (∀ r i, (r, i) ∈ removed →
     world s' !! i = Some r ∧
     heap s' !! r = Some (mkToken (Some i) RegisteredInWorld)).
Proof.
  intros Hadd Hrem Hnd Hok Hndr Hndi Hokr s'.
  assert (Hrun : ∀ h : Messages.Message nat → M Store unit,
            Messages._handle_hard_sync_error h m s = h m s').
  { intros h. unfold Messages._handle_hard_sync_error. rewrite Hadd, Hrem.
    rewrite (bind_Return _ _ _ _ _ (undo_added_loop added s Hnd Hok)).
    erewrite bind_Return; [done|].
    apply restore_removed_loop; [done|done|]. by apply undo_added_loop_removed. }
  split; [apply Hrun|]. split; [apply Hrun|]. split.
  - intros c i r Hin. subst s'. unfold reversed.
    destruct (added_apart_from_removed added removed s c i r Hok Hokr Hin) as [Hr Hi].
    destruct (restore_removed_frame removed (foldl undo_added s added)) as [Hh Hw].
    rewrite Hh, Hw by done. split.
    + rewrite undo_added_world. rewrite decide_True; [done|].
      apply list_elem_of_fmap. by exists (c, i, r).
    + apply undo_added_heap with (c := c); [|done].
      by apply added_real_tokens_NoDup with (s := s).
  - intros r i Hin. by apply restore_removed_lookup.
Qed.

End HardSyncFacts.

(** ** The theorems at work on concrete scenarios *)

Section Instances.
Import Scenarios.

(** C4 on a message that was sent and on one that was not. *)
Lemma token_lists_frozen_once_sent_at_sent :
  Messages.add_token is_token (PyToken 5) sent = (sent, Raise MessageAlreadySent) ∧
  Messages.remove_tokens [PyToken 5; PyToken 6] sent = (sent, Raise MessageAlreadySent).
Proof.
  destruct (token_lists_frozen_once_sent is_token sent (PyToken 5) [PyToken 5; PyToken 6] eq_refl)
    as (Ha & _ & _ & Hr & Hsame & _).
  destruct (Hsame (ex_intro _ 3 eq_refl)) as (Ha1 & _ & _ & Hr1).
  destruct (Messages.add_token is_token (PyToken 5) sent) as [m1 r1].
  destruct (Messages.remove_tokens [PyToken 5; PyToken 6] sent) as [m2 r2].
  simpl in *. subst m1 m2.
  rewrite (proj2 Ha (ex_intro _ 3 eq_refl)), (proj2 Hr (ex_intro _ 3 eq_refl)).
  split; reflexivity.
Defined.

(** C9 on a message that was never sent. *)
Lemma unpickled_unsent_stays_mutable_at_unsent :
  Messages.was_sent (Messages.unpickled unsent) = false ∧
  Messages._was_sent (Messages.unpickled unsent) = Some true ∧
  Messages.tokens_to_add (Messages.add_token is_token (PyToken 5) (Messages.unpickled unsent)).1 =
    [PyToken 5].
Proof.
  destruct (unpickled_unsent_stays_mutable is_token unsent (PyToken 5) [] eq_refl eq_refl)
    as (_ & _ & Hflag & Hsent & _ & _ & _ & _ & Hadd & _).
  rewrite Hadd. split; [exact Hsent|]. split; [exact Hflag|]. reflexivity.
Defined.

(** C10 with a string in place of a token. *)
Lemma plural_operations_skip_token_check_at_string :
  Messages.add_token is_token (PyStr "not a token") unsent = (unsent, Raise ApiUsageError) ∧
  Messages.tokens_to_add (Messages.add_tokens [PyStr "not a token"] unsent).1 =
    [PyStr "not a token"].
Proof.
  destruct (plural_operations_skip_token_check is_token unsent (PyStr "not a token")
              eq_refl eq_refl) as (Ha & _ & Hp & _).
  rewrite Hp. split; [exact Ha|]. reflexivity.
Defined.

(** C2: token 11 is already in the world, so the message is rejected and
    the hook, which would have accepted, is not called; in a world that
    holds token 12 only, the hook decides. *)
Lemma check_structural_before_hook_at_swap :
  Messages._check in_world py_id issued fst accept_all swap_tokens [11; 12] (1, [11]) [] =
    ([], Return false) ∧
  Messages._check in_world py_id issued fst accept_all swap_tokens [12] (1, [11]) [] =
    ([Messages.CallOnCheck [12] 1], Return true).
Proof.
  assert (Hids : Forall (λ token, is_Some (py_id token)) (Messages.tokens_to_add swap_tokens)).
  { constructor; [by exists 11|constructor]. }
  split.
  - apply (check_structural_before_hook in_world py_id issued fst accept_all
             swap_tokens [11; 12] (1, [11]) [] Hids).
    left. by constructor.
  - apply (check_structural_before_hook in_world py_id issued fst accept_all
             swap_tokens [12] (1, [11]) [] Hids).
    + by repeat constructor.
    + constructor; [|constructor]. intros i Hi. inversion Hi; subst. reflexivity.
    + by repeat constructor.
Defined.

(** C3 on the store of a sender that raced ahead, with a reset that
    forgets the id: id 10 leaves the world, id 20 is back with its object,
    and the hook of the base class raises. *)
Lemma hard_sync_error_reverses_at_raced_store :
  ∃ s', Messages._handle_hard_sync_error (ops := WorldModel.store_ops forget_id)
          Messages.default_on_hard_sync_error raced_message raced_store =
          (s', Raise UnhandledSyncError) ∧
        WorldModel.world s' !! 10 = None ∧
        WorldModel.world s' !! 20 = Some 2%nat ∧
        WorldModel.heap s' !! 2%nat =
          Some (WorldModel.mkToken (Some 20) WorldModel.RegisteredInWorld).
Proof.
  assert (Hadd : Forall (WorldModel.added_ok raced_store) [(1%nat, 10, 0%nat)]).
  { constructor; [|constructor].
    split; [|split; reflexivity].
    exists (WorldModel.mkToken (Some 10) WorldModel.Unregistered). split; reflexivity. }
  assert (Hrem : Forall (WorldModel.removed_ok raced_store) [(2%nat, 20)]).
  { constructor; [|constructor]. split; reflexivity. }
  destruct (hard_sync_error_reverses forget_id Messages.default_on_hard_sync_error
              raced_message raced_store [(1%nat, 10, 0%nat)] [(2%nat, 20)]
              eq_refl eq_refl (NoDup_singleton _) Hadd
              (NoDup_singleton _) (NoDup_singleton _) Hrem)
    as (_ & Hraise & Hadded & Hremoved).
  exists (WorldModel.reversed raced_store [(1%nat, 10, 0%nat)] [(2%nat, 20)]).
  split; [exact Hraise|].
  destruct (Hadded 1%nat 10 0%nat) as [Hw _]; [by left|].
  destruct (Hremoved 2%nat 20) as [Hw' Hh']; [by left|].
  split; [exact Hw|]. split; [exact Hw'|exact Hh'].
Defined.

(** The ordering scenario: of the tickers 1, 2, 3, 2 from origin 9 the
    first three are delivered to the subscriber, the repeated 2 is dropped
    and the history stays at 3. *)
Example update_drops_duplicate_ticker :
  ∃ forum',
    Messaging.update fst duplicate_2 listening_forum =
      (forum', Return [Messaging.Called 7%nat ("Move", 1); Messaging.Called 7%nat ("Move", 2);
                       Messaging.Called 7%nat ("Move", 3)]%string) ∧
    Messaging.history forum' !! 9 = Some 3 ∧
    Messaging.publications forum' = [].
Proof. eexists. split; [reflexivity|]. split; reflexivity. Qed.

(** The reset scenario: after [unlock], callback 7 and the message
    published before are gone; only callback 8 is called, with the message
    published afterwards. *)
Example unlock_forgets_subscriber :
  (Messaging.run fst resubscribe_after_unlock (Messaging.mkForum [] ∅ ∅ [] 1 false)).2 =
    [Messaging.Called 8%nat ("Move"%string, 2)].
Proof. reflexivity. Qed.

(** C7 fails as stated: a message whose delay has run down to exactly 0
    is not published, it is pending again with delay 0. *)
Lemma timer_zero_delay_is_deferred :
  let timer' := (Messaging.Timer_deliver Z.sub int_negative 5 timer_due_in_5).1 in
  5 - 5 ≤ 0 ∧
  Messaging.publications (Messaging.forum timer') = [] ∧
  Messaging.pending timer' = [(0, "tick"%string)].
Proof. split; [done|]. split; reflexivity. Qed.

End Instances.

(** * Further properties of the code *)

(** ** Messages: pickling, provenance and token lists *)

Section MessageExtras.
Import Messages.
Context {V : Type}.

(** X1: pickling a message and unpickling it gives the message back with
    [_was_sent] set: both token lists (empty or not), the sender and the
    error state survive, so [was_sent] and the two error tests answer as
    before; a second round trip changes nothing any more. *)
Theorem pickle_round_trip (m : Message V) :
  unpickled m =
    mkMessage (tokens_to_add m) (tokens_to_remove m) (sender_id m) (_error_state m)
      (Some true) ∧
  was_sent (unpickled m) = was_sent m ∧
  has_soft_sync_error (unpickled m) = has_soft_sync_error m ∧
  has_hard_sync_error (unpickled m) = has_hard_sync_error m ∧
  unpickled (unpickled m) = unpickled m.
Proof.
  assert (Hu : ∀ m' : Message V, unpickled m' =
            mkMessage (tokens_to_add m') (tokens_to_remove m') (sender_id m')
              (_error_state m') (Some true)).
  { intros [a r s e w]. unfold unpickled, __setstate__, __getstate__. simpl.
    by destruct a, r. }
  split; [apply Hu|]. rewrite (Hu (unpickled m)), !(Hu m). done.
Qed.

(** X2: once [_set_sender_id] has run, [was_sent_by] compares the stored
    identity with the given one and [was_sent_by_referee] compares it with 0;
    a second [_set_sender_id] replaces the first.  On a message that was
    never sent both tests raise [AttributeError], where [was_sent] answers
    false. *)
Theorem sender_provenance (m : Message V) (i j : Z) :
  was_sent (_set_sender_id i m) = true ∧
  was_sent_by j (_set_sender_id i m) = (_set_sender_id i m, Return (i =? j)) ∧
  was_sent_by_referee (_set_sender_id i m) = (_set_sender_id i m, Return (i =? 0)) ∧
  _set_sender_id j (_set_sender_id i m) = _set_sender_id j m ∧
  (sender_id m = None →
     was_sent m = false ∧
     was_sent_by j m = (m, Raise AttributeError) ∧
     was_sent_by_referee m = (m, Raise AttributeError)).
Proof.
  split; [done|]. split; [done|]. split; [done|]. split; [done|].
  intros Hn. unfold was_sent, was_sent_by, was_sent_by_referee. by rewrite Hn.
Qed.

Lemma set_tokens_to_add_same (m : Message V) : set_tokens_to_add (tokens_to_add m) m = m.
Proof. by destruct m. Qed.

Lemma set_tokens_to_remove_same (m : Message V) :
  set_tokens_to_remove (tokens_to_remove m) m = m.
Proof. by destruct m. Qed.

(** X3: the plural operations compose.  Adding two batches one after the
    other is adding their concatenation, adding and removing commute and do
    not touch each other's list, and an empty batch changes nothing; on a
    message that was sent even the empty batch raises. *)
Theorem token_batches_compose (m : Message V) (a1 a2 r : list V) :
  bind (add_tokens a1) (λ _, add_tokens a2) m = add_tokens (a1 ++ a2) m ∧
  bind (remove_tokens a1) (λ _, remove_tokens a2) m = remove_tokens (a1 ++ a2) m ∧
  bind (add_tokens a1) (λ _, remove_tokens r) m =
    bind (remove_tokens r) (λ _, add_tokens a1) m ∧
  tokens_to_remove (add_tokens a1 m).1 = tokens_to_remove m ∧
  tokens_to_add (remove_tokens r m).1 = tokens_to_add m ∧
  add_tokens [] m = (m, if was_sent m then Raise MessageAlreadySent else Return tt) ∧
  remove_tokens [] m = (m, if was_sent m then Raise MessageAlreadySent else Return tt).
Proof.
  unfold bind. rewrite !add_tokens_eq, !remove_tokens_eq.
  destruct (was_sent m) eqn:Hs; simpl.
  - done.
  - rewrite !add_tokens_eq, !remove_tokens_eq.
    unfold was_sent in *. simpl. rewrite Hs.
    rewrite !app_nil_r, set_tokens_to_add_same, set_tokens_to_remove_same.
    unfold set_tokens_to_add, set_tokens_to_remove. simpl.
    by rewrite !app_assoc.
Qed.

End MessageExtras.

(** ** Messages: what goes wrong in [_check] and [_execute] *)

Section CheckExtras.
Import Messages.
Context {V W F Id : Type}.
Variable world_contains : W → V → bool.
Variable token_id : V → option Id.
Variable factory_contains : F → Id → bool.
Variable factory_get : F → Z.
Variable on_check : Message V → W → Z → bool.

Lemma check_tokens_to_add_stuck (world : W) (id_factory : F) (tokens : list V) (v : V)
    (log : list (HookCall W)) :
  Forall (λ token, Messages.addable world_contains token_id factory_contains
                     world id_factory token = true) tokens →
  world_contains world v = false →
  token_id v = None →
  check_tokens_to_add world_contains token_id factory_contains world id_factory
    (tokens ++ [v]) log = (log, Raise AttributeError).
Proof.
  intros Hok Hv Hid. induction Hok as [|token rest Htoken _ IH]; simpl.
  - by rewrite Hv, Hid.
  - unfold Messages.addable in Htoken. apply andb_true_iff in Htoken as [Hw Hf].
    apply negb_true_iff in Hw. rewrite Hw.
    destruct (token_id token) as [id|]; [|done].
    rewrite Hf. simpl. apply IH.
Qed.

(** X4: [add_tokens] lets a value without an [id] attribute into the list
    of tokens to add, and [_check] then does not return false for it: once
    the tokens before it have passed and the world does not contain it,
    reading its [id] raises [AttributeError], and [on_check] is not called. *)
Theorem check_raises_on_value_without_id (m : Message V) (world : W) (id_factory : F)
    (v : V) (log : list (HookCall W)) :
  sender_id m = None →
  Forall (λ token, Messages.addable world_contains token_id factory_contains
                     world id_factory token = true) (tokens_to_add m) →
  world_contains world v = false →
  token_id v = None →
  add_tokens [v] m = (set_tokens_to_add (tokens_to_add m ++ [v]) m, Return tt) ∧
  _check world_contains token_id factory_contains factory_get on_check
    (add_tokens [v] m).1 world id_factory log = (log, Raise AttributeError).
Proof.
  intros Hunsent Hok Hv Hid.
  assert (Hadd : add_tokens [v] m =
            (set_tokens_to_add (tokens_to_add m ++ [v]) m, Return tt)).
  { rewrite add_tokens_eq. unfold was_sent. by rewrite Hunsent. }
  split; [done|]. rewrite Hadd. unfold _check, bind. simpl.
  by rewrite check_tokens_to_add_stuck.
Qed.

End CheckExtras.

Section ExecuteExtras.
Import Messages.
Context {V Id Σ : Type} {ops : WorldOps V Id Σ}.

Lemma for_each_app {A} (l1 l2 : list A) (body : A → M Σ unit) (s : Σ) :
  for_each (l1 ++ l2) body s =
    match for_each l1 body s with
    | (s1, Return _) => for_each l2 body s1
    | (s1, Raise e) => (s1, Raise e)
    end.
Proof.
  revert s. induction l1 as [|x l1 IH]; intros s; [done|].
  simpl. unfold bind. destruct (body x s) as [s' [[]|e]]; [apply IH|done].
Qed.

(** X5: [_execute] is not atomic.  When adding one of the tokens fails, the
    exception leaves [_execute] at once: the tokens added before it stay in
    the world, no token is removed and [on_execute] does not run. *)
Theorem execute_stops_at_failed_add (on_execute : Message V → M Σ unit) (m : Message V)
    (before : list V) (x : V) (after : list V) (s s1 s2 : Σ) (e : exn) :
  tokens_to_add m = before ++ x :: after →
  for_each before (λ token, _add_token token) s = (s1, Return tt) →
  _add_token x s1 = (s2, Raise e) →
  _execute on_execute m s = (s2, Raise e).
Proof.
  intros Hadd Hbefore Hx. unfold _execute, bind at 1.
  rewrite Hadd, for_each_app, Hbefore. simpl. unfold bind at 1. by rewrite Hx.
Qed.

End ExecuteExtras.

(** ** Forum: subscriptions, locking and delivery *)

Section ForumExtras.
Import Messaging.
Context {Msg Flavor : Type} `{Countable Flavor}.
Variable type : Msg → Flavor.

Local Abbreviation Forum := (Messaging.Forum Msg Flavor).

Lemma run_app (ops1 ops2 : list (Op Msg Flavor)) (self : Forum) :
  run type (ops1 ++ ops2) self =
    (let '(self1, events1) := run type ops1 self in
     let '(self2, events2) := run type ops2 self1 in
     (self2, events1 ++ events2)).
Proof.
  revert self. induction ops1 as [|op ops1 IH]; intros self; simpl.
  - by destruct (run type ops2 self).
  - destruct (step type op self) as [self1 events1]. rewrite IH.
    destruct (run type ops1 self1) as [self2 events2].
    destruct (run type ops2 self2) as [self3 events3].
    by rewrite app_assoc.
Qed.

(** Subscribing a list of callbacks to one flavor, on an unlocked forum. *)
Lemma subscribe_all (flavor : Flavor) (callbacks : list Callback) (self : Forum) :
  locked self = false →
  ∃ self', run type (map (DoSubscribe flavor) callbacks) self = (self', []) ∧
    pipes self' = pipes self ∧ publications self' = publications self ∧
    history self' = history self ∧ target self' = target self ∧
    locked self' = false ∧
    ∀ fl, default [] (subscriptions self' !! fl) =
          default [] (subscriptions self !! fl) ++
          (if decide (fl = flavor) then callbacks else []).
Proof.
  revert self. induction callbacks as [|c callbacks IH]; intros self Hl.
  - exists self. repeat split; try done. intros fl.
    by case_decide; rewrite app_nil_r.
  - simpl. unfold subscribe at 1, bind, gets, modify. rewrite Hl. simpl.
    set (self1 := match subscriptions self !! flavor with
                  | Some cs => set_subscriptions (<[flavor := cs ++ [c]]> (subscriptions self)) self
                  | None => set_subscriptions (<[flavor := [c]]> (subscriptions self)) self
                  end).
    assert (Hself1 : pipes self1 = pipes self ∧ publications self1 = publications self ∧
              history self1 = history self ∧ target self1 = target self ∧
              locked self1 = false ∧
              ∀ fl, default [] (subscriptions self1 !! fl) =
                    default [] (subscriptions self !! fl) ++
                    (if decide (fl = flavor) then [c] else [])).
    { subst self1. destruct (subscriptions self !! flavor) as [cs|] eqn:Hcs; simpl;
        repeat split; try done; intros fl; case_decide as Hfl; subst;
        rewrite ?lookup_insert_eq, ?lookup_insert_ne, ?Hcs, ?app_nil_r by done; done. }
    destruct Hself1 as (Hp & Hq & Hh & Ht & Hl1 & Hs).
    destruct (IH self1 Hl1) as (self' & Hrun & Hp' & Hq' & Hh' & Ht' & Hl' & Hs').
    exists self'. rewrite Hrun. simpl.
    repeat split; try congruence.
    intros fl. rewrite Hs', Hs, <- app_assoc. by case_decide.
Qed.

(** X6: callbacks are called in the order in which they subscribed.  On an
    unlocked forum, subscribing callbacks to a flavor appends them, in order,
    to the callbacks of that flavor and leaves the other flavors alone; on a
    new forum without pipes, a message of that flavor published after [lock]
    is handed by [update] to exactly these callbacks, in that order. *)
Theorem callbacks_run_in_subscription_order (self : Forum) (callbacks : list Callback)
    (message : Msg) (io : PipeIO Msg Flavor) :
  locked self = false →
  (∀ fl, default [] (subscriptions
                       (run type (map (DoSubscribe (type message)) callbacks) self).1 !! fl) =
         default [] (subscriptions self !! fl) ++
         (if decide (fl = type message) then callbacks else [])) ∧
  (run type (map (DoSubscribe (type message)) callbacks ++
             [DoLock; DoPublish message; DoUpdate io])
     (Forum__init__ []).1).2 = map (λ c, Called c message) callbacks.
Proof.
  intros Hl. split.
  - destruct (subscribe_all (type message) callbacks self Hl) as (self' & Hrun & Hrest).
    rewrite Hrun. apply Hrest.
  - rewrite run_app.
    destruct (subscribe_all (type message) callbacks (Forum__init__ (Msg := Msg) []).1 eq_refl)
      as (self' & Hrun & Hp & Hq & Hh & Ht & Hl' & Hs).
    rewrite Hrun. simpl in Hp, Hq.
    simpl. unfold update, lock, publish, put, receive_incoming. simpl.
    rewrite Hp, Hq. simpl. rewrite Hp, app_nil_r.
    specialize (Hs (type message)). simpl in Hs. rewrite lookup_empty in Hs.
    rewrite decide_True in Hs by done. simpl in Hs.
    destruct (flush_outgoing io _) as [self3 target3]. simpl.
    by rewrite Hs, !app_nil_r.
Qed.

(** The two loops over the pipes keep the configuration of the forum. *)
Lemma same_config_refl (self : Forum) : same_config self self.
Proof. done. Qed.

Lemma same_config_trans (f1 f2 f3 : Forum) :
  same_config f1 f2 → same_config f2 f3 → same_config f1 f3.
Proof. intros (? & ? & ? & ?) (? & ? & ? & ?). repeat split; congruence. Qed.

Lemma accept_packet_config (pipe : Pipe) (st : Forum * Z) (packet : Packet Msg Flavor) :
  same_config st.1 (accept_packet pipe st packet).1.
Proof.
  destruct st as [self lt], packet as [[[[tg origin] ticker] flavor] message].
  unfold accept_packet. by destruct (ticker >? _).
Qed.

Lemma receive_incoming_config (io : PipeIO Msg Flavor) (st : Forum * Z) :
  same_config st.1 (receive_incoming io st).1.
Proof.
  unfold receive_incoming.
  apply (foldl_invariant (λ st', same_config st.1 st'.1)); [|done].
  intros st1 pipe _ Hst1. unfold receive_from.
  apply (foldl_invariant (λ st', same_config st.1 st'.1)); [|done].
  intros st2 packet _ Hst2.
  eapply same_config_trans; [exact Hst2|apply accept_packet_config].
Qed.

Lemma note_delivered_config (st : Forum * Z) (packet : Packet Msg Flavor) :
  same_config st.1 (note_delivered st packet).1.
Proof. by destruct st as [self lt], packet as [[[[tg origin] ticker] flavor] message]. Qed.

Lemma flush_outgoing_config (io : PipeIO Msg Flavor) (st : Forum * Z) :
  same_config st.1 (flush_outgoing io st).1.
Proof.
  unfold flush_outgoing.
  apply (foldl_invariant (λ st', same_config st.1 st'.1)); [|done].
  intros st1 pipe _ Hst1.
  apply (foldl_invariant (λ st', same_config st.1 st'.1)); [|done].
  intros st2 packet _ Hst2.
  eapply same_config_trans; [exact Hst2|apply note_delivered_config].
Qed.

(** [update] on a locked forum, phase by phase. *)
Lemma update_phases (io : PipeIO Msg Flavor) (self : Forum) :
  locked self = true →
  update type io self =
    ((flush_outgoing io
        (set_publications [] (receive_incoming io (self, target self)).1,
         (receive_incoming io (self, target self)).2)).1,
     Return (drain type (receive_incoming io (self, target self)).1
               (receive_incoming io (self, target self)).2
               (publications (receive_incoming io (self, target self)).1))).
Proof.
  intros Hl. unfold update. rewrite Hl. simpl.
  destruct (receive_incoming io (self, target self)) as [self1 target1]. simpl.
  by destruct (flush_outgoing io (set_publications [] self1, target1)).
Qed.

Lemma update_config (io : PipeIO Msg Flavor) (self : Forum) :
  pipes (update type io self).1 = pipes self ∧
  subscriptions (update type io self).1 = subscriptions self ∧
  target (update type io self).1 = target self ∧
  locked (update type io self).1 = locked self ∧
  (if locked self then publications (update type io self).1 = []
   else update type io self = (self, Raise AssertionError)).
Proof.
  destruct (locked self) eqn:Hl.
  - rewrite update_phases by done. simpl.
    pose proof (receive_incoming_config io (self, target self)) as Hr.
    destruct (receive_incoming io (self, target self)) as [self1 target1]. simpl in *.
    pose proof (flush_outgoing_config io (set_publications [] self1, target1)) as Hf.
    pose proof (flush_outgoing_keeps io (set_publications [] self1, target1)) as [_ Hq].
    destruct (flush_outgoing io (set_publications [] self1, target1)) as [self3 target3].
    simpl in *. destruct Hr as (? & ? & ? & ?), Hf as (? & ? & ? & ?).
    simpl in *. repeat split; congruence.
  - unfold update. rewrite Hl. simpl. by rewrite Hl.
Qed.

(** X7: [update] never changes the configuration of the forum: pipes,
    subscriptions and lock flag stay as they are, and so does the attribute
    [target], although the local variable of that name is rebound by every
    tag that is unpacked.  On a locked forum the publication queue is empty
    afterwards. *)
Theorem update_keeps_configuration (io : PipeIO Msg Flavor) (self : Forum) :
  pipes (update type io self).1 = pipes self ∧
  subscriptions (update type io self).1 = subscriptions self ∧
  target (update type io self).1 = target self ∧
  locked (update type io self).1 = locked self ∧
  (if locked self then publications (update type io self).1 = []
   else update type io self = (self, Raise AssertionError)).
Proof. apply update_config. Qed.

(** X8: the lock decides which methods run.  On a locked forum [subscribe]
    and [setup] fail their assertion and change nothing; on a forum that is
    not locked (after [unlock], after [teardown], or new) [update] fails its
    assertion, delivers nothing and leaves the forum as it was, a message
    published in the meantime included; once the forum is locked, [update]
    runs. *)
Theorem lock_discipline (self : Forum) (flavor : Flavor) (callback : Callback)
    (new_pipes : list Pipe) (io : PipeIO Msg Flavor) (message : Msg) :
  subscribe flavor callback (lock self) = (lock self, Raise AssertionError) ∧
  setup new_pipes (lock self) = (lock self, Raise AssertionError) ∧
  update type io (unlock self) = (unlock self, Raise AssertionError) ∧
  update type io (teardown self) = (teardown self, Raise AssertionError) ∧
  update type io (Forum__init__ new_pipes).1 =
    ((Forum__init__ new_pipes).1, Raise AssertionError) ∧
  update type io (publish message (unlock self)) =
    (publish message (unlock self), Raise AssertionError) ∧
  ∃ events, (update type io (lock (publish message (unlock self)))).2 = Return events.
Proof.
  do 6 (split; [done|]).
  rewrite update_phases by done. by eexists.
Qed.

Lemma receive_incoming_silent (io : PipeIO Msg Flavor) (st : Forum * Z) :
  (∀ pipe t, receive io pipe t = []) → receive_incoming io st = st.
Proof.
  intros Hsilent. unfold receive_incoming.
  apply (foldl_invariant (λ st', st' = st)); [|done].
  intros st1 pipe _ ->. unfold receive_from. by rewrite Hsilent.
Qed.

(** X9: a publication is delivered once.  After [update] on a locked forum
    the queue is empty, so the next [update], if the pipes hand over nothing
    new, calls no callback and sends nothing. *)
Theorem update_delivers_once (io io' : PipeIO Msg Flavor) (self : Forum) :
  locked self = true →
  (∀ pipe t, receive io' pipe t = []) →
  publications (update type io self).1 = [] ∧
  (update type io' (update type io self).1).2 = Return [].
Proof.
  intros Hl Hsilent.
  destruct (update_config io self) as (_ & _ & _ & Hl' & Hq).
  rewrite Hl in Hl', Hq. split; [done|].
  rewrite update_phases by done.
  rewrite receive_incoming_silent by done. simpl. by rewrite Hq.
Qed.

Lemma is_not_spec (pipe : Pipe) (sender : option Pipe) :
  is_not pipe sender = true ↔ sender ≠ Some pipe.
Proof.
  destruct sender as [q|]; simpl; [|done].
  rewrite negb_true_iff, Nat.eqb_neq. split; [congruence|].
  intros Hne ->. by apply Hne.
Qed.

Lemma deliver_publication_resent (self : Forum) (t : Z) (publication : Publication Msg)
    (pipe : Pipe) (tag : Tag) (message : Msg) :
  Resent pipe tag message ∈ deliver_publication type self t publication ↔
  ∃ sender, publication = (sender, Some tag, message) ∧
            pipe ∈ pipes self ∧ sender ≠ Some pipe.
Proof.
  destruct publication as [[sender tag0] message0]. unfold deliver_publication.
  rewrite elem_of_app. split.
  - intros [Hc|Hp].
    + apply list_elem_of_fmap in Hc as (c & Heq & _). discriminate.
    + apply list_elem_of_In, in_flat_map in Hp as (q & Hq & Hev).
      destruct (is_not q sender) eqn:Hnot; [|done].
      destruct tag0 as [tag0|]; simpl in Hev; destruct Hev as [Hev|[]];
        inversion Hev; subst.
      exists sender. split; [done|]. split; [by apply list_elem_of_In|].
      by apply is_not_spec.
  - intros (sender' & Heq & Hin & Hne). inversion Heq; subst. right.
    apply list_elem_of_In, in_flat_map. exists pipe.
    split; [by apply list_elem_of_In|].
    rewrite (proj2 (is_not_spec pipe sender') Hne). by left.
Qed.

Lemma deliver_publication_sent (self : Forum) (t : Z) (publication : Publication Msg)
    (pipe : Pipe) (t' : Z) (message : Msg) :
  Sent pipe t' message ∈ deliver_publication type self t publication ↔
  t' = t ∧ ∃ sender, publication = (sender, None, message) ∧
                     pipe ∈ pipes self ∧ sender ≠ Some pipe.
Proof.
  destruct publication as [[sender tag0] message0]. unfold deliver_publication.
  rewrite elem_of_app. split.
  - intros [Hc|Hp].
    + apply list_elem_of_fmap in Hc as (c & Heq & _). discriminate.
    + apply list_elem_of_In, in_flat_map in Hp as (q & Hq & Hev).
      destruct (is_not q sender) eqn:Hnot; [|done].
      destruct tag0 as [tag0|]; simpl in Hev; destruct Hev as [Hev|[]];
        inversion Hev; subst.
      split; [done|]. exists sender. split; [done|].
      split; [by apply list_elem_of_In|]. by apply is_not_spec.
  - intros (-> & sender' & Heq & Hin & Hne). inversion Heq; subst. right.
    apply list_elem_of_In, in_flat_map. exists pipe.
    split; [by apply list_elem_of_In|].
    rewrite (proj2 (is_not_spec pipe sender') Hne). by left.
Qed.

Lemma drain_resent (self : Forum) (t : Z) (queue : list (Publication Msg))
    (pipe : Pipe) (tag : Tag) (message : Msg) :
  Resent pipe tag message ∈ drain type self t queue ↔
  ∃ sender, (sender, Some tag, message) ∈ queue ∧
            pipe ∈ pipes self ∧ sender ≠ Some pipe.
Proof.
  induction queue as [|publication queue IH]; simpl.
  - split; [intros Hin; by apply elem_of_nil in Hin|].
    intros (sender & Hin & _). by apply elem_of_nil in Hin.
  - rewrite elem_of_app, deliver_publication_resent, IH. split.
    + intros [(sender & -> & Hp & Hne)|(sender & Hin & Hp & Hne)];
        exists sender; (split; [|done]); [by left|by right].
    + intros (sender & Hin & Hp & Hne).
      apply elem_of_cons in Hin as [<-|Hin]; [left|right]; by exists sender.
Qed.

Lemma drain_sent (self : Forum) (t : Z) (queue : list (Publication Msg))
    (pipe : Pipe) (t' : Z) (message : Msg) :
  Sent pipe t' message ∈ drain type self t queue ↔
  t' = t ∧ ∃ sender, (sender, None, message) ∈ queue ∧
                     pipe ∈ pipes self ∧ sender ≠ Some pipe.
Proof.
  induction queue as [|publication queue IH]; simpl.
  - split; [intros Hin; by apply elem_of_nil in Hin|].
    intros (_ & sender & Hin & _). by apply elem_of_nil in Hin.
  - rewrite elem_of_app, deliver_publication_sent, IH. split.
    + intros [(-> & sender & -> & Hp & Hne)|(-> & sender & Hin & Hp & Hne)];
        (split; [done|]); exists sender; (split; [|done]); [by left|by right].
    + intros (-> & sender & Hin & Hp & Hne).
      apply elem_of_cons in Hin as [<-|Hin]; [left|right];
        (split; [done|]); by exists sender.
Qed.

(** X10: who a publication is relayed to.  A publication that came over
    the network is resent, under its own tag, to every connected pipe except
    the one it came from, and to nobody else; a local publication is sent to
    every connected pipe under the current target.  No message goes back to
    the pipe that delivered it. *)
Theorem relay_rules (self : Forum) (t : Z) (queue : list (Publication Msg))
    (pipe : Pipe) (tag : Tag) (t' : Z) (message : Msg) :
  (Resent pipe tag message ∈ drain type self t queue ↔
     ∃ sender, (sender, Some tag, message) ∈ queue ∧
               pipe ∈ pipes self ∧ sender ≠ Some pipe) ∧
  (Sent pipe t' message ∈ drain type self t queue ↔
     t' = t ∧ ∃ sender, (sender, None, message) ∈ queue ∧
                        pipe ∈ pipes self ∧ sender ≠ Some pipe) ∧
  (∀ tag0 message0 event,
     event ∈ deliver_publication type self t (Some pipe, tag0, message0) →
     event ≠ Resent pipe tag message ∧ event ≠ Sent pipe t' message).
Proof.
  split; [apply drain_resent|]. split; [apply drain_sent|].
  intros tag0 message0 event Hin. split; intros ->.
  - apply deliver_publication_resent in Hin as (sender & Heq & _ & Hne).
    inversion Heq; subst. by apply Hne.
  - apply deliver_publication_sent in Hin as (_ & sender & Heq & _ & Hne).
    inversion Heq; subst. by apply Hne.
Qed.

(** *** The receiving loop *)

Lemma accept_packet_target (pipe : Pipe) (st : Forum * Z) (tg origin ticker : Z)
    (flavor : Flavor) (message : Msg) :
  (accept_packet pipe st (tg, origin, ticker, flavor, message)).2 = tg.
Proof. destruct st as [self lt]. unfold accept_packet. by destruct (ticker >? _). Qed.

Lemma accept_packets_target (pipe : Pipe) (packets : list (Packet Msg Flavor))
    (st : Forum * Z) :
  (foldl (accept_packet pipe) st packets).2 = last_target st.2 packets.
Proof.
  induction packets as [|[[[[tg origin] ticker] flavor] message] packets _] using rev_ind.
  - done.
  - rewrite foldl_app. simpl. rewrite accept_packet_target.
    unfold last_target. by rewrite last_snoc.
Qed.

Lemma queued_tickers_app (o : Z) (q1 q2 : list (Publication Msg)) :
  queued_tickers o (q1 ++ q2) = queued_tickers o q1 ++ queued_tickers o q2.
Proof. unfold queued_tickers. apply flat_map_app. Qed.

Lemma accept_packets_appends (pipe : Pipe) (packets : list (Packet Msg Flavor))
    (st : Forum * Z) (o : Z) :
  ∃ new,
    publications (foldl (accept_packet pipe) st packets).1 = publications st.1 ++ new ∧
    Forall (λ publication : Publication Msg, publication.1.1 = Some pipe) new ∧
    StronglySorted Z.lt (queued_tickers o new) ∧
    Forall (λ k, seen st.1 o < k) (queued_tickers o new).
Proof.
  revert st. induction packets as [|packet packets IH]; intros st.
  - exists []. rewrite app_nil_r. repeat split; constructor.
  - simpl. destruct (IH (accept_packet pipe st packet)) as (new & Hq & Hs & Hsorted & Hlow).
    pose proof (accept_packet_seen pipe st packet o) as Hseen.
    destruct st as [self lt], packet as [[[[tg origin] ticker] flavor] message].
    destruct (Z.le_gt_cases ticker (seen self origin)) as [Hle|Hgt].
    + rewrite accept_packet_stale in * by done. by exists new.
    + rewrite accept_packet_newer in * by lia. simpl in *.
      exists ((Some pipe, Some (tg, origin, ticker), message) :: new).
      split; [by rewrite Hq, <- app_assoc|].
      split; [by constructor|].
      change ((Some pipe, Some (tg, origin, ticker), message) :: new)
        with ([(Some pipe, Some (tg, origin, ticker), message)] ++ new).
      rewrite queued_tickers_app. simpl.
      destruct (decide (origin = o)) as [->|Hne]; simpl in *.
      * rewrite Hseen in Hlow.
        assert (Hmax : Z.max (seen self o) ticker = ticker) by lia.
        rewrite Hmax in Hlow. split.
        -- by constructor.
        -- constructor; [lia|].
           eapply Forall_impl; [exact Hlow|]. intros k Hk. simpl in Hk. lia.
      * rewrite Hseen in Hlow. by split.
Qed.

(** X11: what one batch of packets adds to the queue.  The queue only grows
    at its end, every new entry names the pipe it came from, and for each
    origin the tickers of the new entries are strictly increasing and all
    above what the history held for that origin before. *)
Theorem accepted_tickers_strictly_increase (pipe : Pipe) (packets : list (Packet Msg Flavor))
    (st : Forum * Z) (o : Z) :
  ∃ new,
    publications (foldl (accept_packet pipe) st packets).1 = publications st.1 ++ new ∧
    Forall (λ publication : Publication Msg, publication.1.1 = Some pipe) new ∧
    StronglySorted Z.lt (queued_tickers o new) ∧
    Forall (λ k, seen st.1 o < k) (queued_tickers o new).
Proof. apply accept_packets_appends. Qed.

Lemma foldl_max_ge (l : list Z) (a : Z) :
  a ≤ foldl Z.max a l ∧ ∀ k, k ∈ l → k ≤ foldl Z.max a l.
Proof.
  revert a. induction l as [|x l IH]; intros a; simpl.
  - split; [lia|]. intros k Hk. by apply elem_of_nil in Hk.
  - destruct (IH (Z.max a x)) as [Ha Hl]. split; [lia|].
    intros k Hk. apply elem_of_cons in Hk as [->|Hk]; [lia|by apply Hl].
Qed.

Lemma accept_packets_stale (pipe : Pipe) (packets : list (Packet Msg Flavor))
    (st : Forum * Z) :
  Forall (λ packet : Packet Msg Flavor,
            let '(_, origin, ticker, _, _) := packet in ticker ≤ seen st.1 origin) packets →
  (foldl (accept_packet pipe) st packets).1 = st.1.
Proof.
  revert st. induction packets as [|[[[[tg origin] ticker] flavor] message] packets IH];
    intros [self lt] Hstale; [done|].
  apply Forall_cons in Hstale as [Hle Hstale]. simpl in Hle.
  cbn [foldl]. rewrite accept_packet_stale by done. by apply (IH (self, tg)).
Qed.

(** X12: a batch that is handed over a second time adds nothing.  After the
    packets of a batch have gone through the receiving loop, the same
    packets, in the same order, are all dropped: queue and history stay as
    the first pass left them. *)
Theorem replayed_batch_is_dropped (pipe : Pipe) (packets : list (Packet Msg Flavor))
    (st : Forum * Z) :
  (foldl (accept_packet pipe) (foldl (accept_packet pipe) st packets) packets).1 =
    (foldl (accept_packet pipe) st packets).1.
Proof.
  apply accept_packets_stale. apply Forall_forall.
  intros [[[[tg origin] ticker] flavor] message] Hin.
  rewrite accept_packets_seen. apply foldl_max_ge.
  unfold tickers_of. apply list_elem_of_In, in_flat_map.
  exists (tg, origin, ticker, flavor, message).
  split; [by apply list_elem_of_In|]. rewrite decide_True by done. by left.
Qed.

Lemma accept_packets_config (pipe : Pipe) (packets : list (Packet Msg Flavor))
    (st : Forum * Z) :
  same_config st.1 (foldl (accept_packet pipe) st packets).1.
Proof.
  apply (foldl_invariant (λ st', same_config st.1 st'.1)); [|done].
  intros st' packet _ Hst'.
  eapply same_config_trans; [exact Hst'|apply accept_packet_config].
Qed.

(** X13: the target of a fresh send is taken from the last packet received.
    Unpacking a tag rebinds the local variable [target], for accepted and for
    dropped packets alike.  On a locked forum with one pipe, whose
    [receive] yields a batch ending in a packet tagged with target [tg], a
    pending local publication is therefore sent to the pipe under [tg] and
    under no other target, while the attribute [target] of the forum keeps
    its value. *)
Theorem sends_use_target_of_last_packet (io : PipeIO Msg Flavor) (self : Forum)
    (pipe : Pipe) (batch : list (Packet Msg Flavor)) (tg origin ticker : Z)
    (flavor : Flavor) (message local_message : Msg) :
  locked self = true →
  pipes self = [pipe] →
  receive io pipe (target self) = batch ++ [(tg, origin, ticker, flavor, message)] →
  (None, None, local_message) ∈ publications self →
  ∃ events,
    (update type io self).2 = Return events ∧
    Sent pipe tg local_message ∈ events ∧
    (∀ t', Sent pipe t' local_message ∈ events → t' = tg) ∧
    target (update type io self).1 = target self.
Proof.
  intros Hl Hpipes Hrecv Hlocal.
  pose proof (update_config io self) as (_ & _ & Ht & _).
  rewrite update_phases in * by done. eexists. split; [reflexivity|].
  split; [|split; [|exact Ht]]; clear Ht.
  all: unfold receive_incoming; cbn [fst]; rewrite Hpipes; cbn [foldl];
    unfold receive_from; cbn [snd]; rewrite Hrecv, accept_packets_target;
    unfold last_target; rewrite last_snoc.
  - apply drain_sent. split; [done|].
    exists None. split; [|split; [|done]].
    + destruct (accept_packets_appends pipe (batch ++ [(tg, origin, ticker, flavor, message)])
                  (self, target self) origin) as (new & -> & _).
      apply elem_of_app. by left.
    + destruct (accept_packets_config pipe (batch ++ [(tg, origin, ticker, flavor, message)])
                  (self, target self)) as (-> & _).
      simpl. rewrite Hpipes. by left.
  - intros t' Hsent. by apply drain_sent in Hsent as [-> _].
Qed.

(** *** The loop over delivered packets *)

Lemma tickers_of_app (o : Z) (l1 l2 : list (Packet Msg Flavor)) :
  tickers_of o (l1 ++ l2) = tickers_of o l1 ++ tickers_of o l2.
Proof. unfold tickers_of. apply flat_map_app. Qed.

Lemma note_delivered_seen (packets : list (Packet Msg Flavor)) (st : Forum * Z) (o : Z) :
  seen (foldl note_delivered st packets).1 o = last_ticker o (seen st.1 o) packets.
Proof.
  induction packets as [|[[[[tg origin] ticker] flavor] message] packets IH] using rev_ind.
  - done.
  - rewrite foldl_app. cbn [foldl]. unfold last_ticker in *.
    rewrite tickers_of_app. simpl.
    destruct (foldl note_delivered st packets) as [self lt]. simpl in *.
    destruct (decide (origin = o)) as [->|Hne]; simpl.
    + rewrite last_snoc. unfold seen. simpl. by rewrite lookup_insert_eq.
    + rewrite app_nil_r, <- IH. unfold seen. simpl. by rewrite lookup_insert_ne.
Qed.

(** X14: the history follows the last delivery.  After the queue is
    drained, every item that [pipe.deliver()] yields overwrites the history
    entry of its origin, without comparing tickers.  On a locked forum with
    one pipe whose [deliver] ends with ticker [k] for an origin, the entry of
    that origin is [k] after [update], whatever was recorded or received
    before, a higher ticker included. *)
Theorem history_follows_last_delivery (io : PipeIO Msg Flavor) (self : Forum)
    (pipe : Pipe) (batch : list (Packet Msg Flavor)) (tg origin k : Z)
    (flavor : Flavor) (message : Msg) :
  locked self = true →
  pipes self = [pipe] →
  deliver io pipe = batch ++ [(tg, origin, k, flavor, message)] →
  seen (update type io self).1 origin = k ∧
  history (update type io self).1 !! origin = Some k.
Proof.
  intros Hl Hpipes Hdel.
  rewrite update_phases by done. cbn [fst].
  pose proof (receive_incoming_config io (self, target self)) as (Hp & _).
  destruct (receive_incoming io (self, target self)) as [self1 target1].
  cbn [fst snd] in *. unfold flush_outgoing. cbn [fst]. simpl pipes.
  rewrite Hp, Hpipes. cbn [foldl]. rewrite Hdel.
  assert (Hh : history (foldl note_delivered (set_publications [] self1, target1)
                          (batch ++ [(tg, origin, k, flavor, message)])).1 !! origin = Some k).
  { rewrite foldl_app. cbn [foldl].
    destruct (foldl note_delivered (set_publications [] self1, target1) batch) as [f lt].
    simpl. by rewrite lookup_insert_eq. }
  split; [|done]. unfold seen. by rewrite Hh.
Qed.

(** X15: [unlock] keeps what the forum knows about its peers, [teardown]
    forgets it.  After [unlock] the pipes and the history are as before, so a
    ticker that was already recorded is still dropped once the forum is
    locked again; after [teardown] pipes and history are empty, so the same
    packet is accepted again. *)
Theorem history_survives_unlock_not_teardown (self : Forum) (pipe : Pipe)
    (local_target tg origin ticker : Z) (flavor : Flavor) (message : Msg) :
  0 < ticker →
  ticker ≤ seen self origin →
  pipes (unlock self) = pipes self ∧
  history (unlock self) = history self ∧
  accept_packet pipe (lock (unlock self), local_target) (tg, origin, ticker, flavor, message) =
    (lock (unlock self), tg) ∧
  pipes (teardown self) = [] ∧
  history (teardown self) = ∅ ∧
  publications
    (accept_packet pipe (lock (teardown self), local_target)
       (tg, origin, ticker, flavor, message)).1 =
    [(Some pipe, Some (tg, origin, ticker), message)].
Proof.
  intros Hpos Hseen. split; [done|]. split; [done|]. split.
  - by apply accept_packet_stale.
  - split; [done|]. split; [done|].
    rewrite accept_packet_newer; [done|]. unfold seen. simpl.
    rewrite lookup_empty. simpl. lia.
Qed.

End ForumExtras.

(** ** Timer: what a tick does to the pending messages *)

Section TimerExtras.
Import Messaging.
Context {Msg Flavor : Type} `{Countable Flavor}.

Lemma filter_split_Permutation {A} (p : A → bool) (l : list A) :
  Permutation (List.filter p l ++ List.filter (λ x, negb (p x)) l) l.
Proof.
  induction l as [|x l IH]; simpl; [constructor|].
  destruct (p x); simpl.
  - by constructor.
  - rewrite <- Permutation_middle. by constructor.
Qed.

(** X16: a tick of the timer neither loses nor duplicates a message.  The
    forum's queue grows at its end by local publications, the messages of
    these together with the messages that are pending afterwards are the
    messages that were pending before, and pipes, subscriptions, target, lock
    flag and history of the forum do not change. *)
Theorem timer_tick_conserves_messages {num : Type} (minus : num → num → num)
    (negative : num → bool) (time : num) (self : Timer Msg Flavor num) :
  ∃ promoted,
    publications (forum (Timer_deliver minus negative time self).1) =
      publications (forum self) ++ map local_publication promoted ∧
    Permutation
      (promoted ++ map snd (pending (Timer_deliver minus negative time self).1))
      (map snd (pending self)) ∧
    same_config (forum self) (forum (Timer_deliver minus negative time self).1) ∧
    history (forum (Timer_deliver minus negative time self).1) = history (forum self).
Proof.
  exists (map snd (List.filter (overdue minus negative time) (pending self))).
  unfold Timer_deliver. cbn [fst]. rewrite reschedule_all. simpl.
  split; [|split; [|done]].
  - f_equal. by rewrite map_map.
  - rewrite map_map. simpl. rewrite <- map_app. apply Permutation_map.
    apply filter_split_Permutation.
Qed.

(** X17: with integer times, two ticks add up.  When the second tick is not
    negative, the messages pending after a tick of [t1] followed by a tick of
    [t2] (each taken in the state the call before left behind) are, with the
    same remaining delays and in the same order, those pending after one tick
    of [t1 + t2]; the queue holds the same publications either way, possibly
    in another order. *)
Theorem timer_ticks_add_up (t1 t2 : Z) (self : Timer Msg Flavor Z) :
  0 ≤ t2 →
  pending (Timer_deliver Z.sub Scenarios.int_negative t2
             (Timer_deliver Z.sub Scenarios.int_negative t1 self).1).1 =
    pending (Timer_deliver Z.sub Scenarios.int_negative (t1 + t2) self).1 ∧
  Permutation
    (publications (forum (Timer_deliver Z.sub Scenarios.int_negative t2
                            (Timer_deliver Z.sub Scenarios.int_negative t1 self).1).1))
    (publications (forum (Timer_deliver Z.sub Scenarios.int_negative (t1 + t2) self).1)).
Proof.
  intros Ht2. unfold Timer_deliver. cbn [fst]. rewrite !reschedule_all. simpl.
  rewrite <- app_assoc. generalize (pending self) as l. intros l. split.
  - induction l as [|[d m] l IH]; [done|].
    unfold still_waiting, overdue, Scenarios.int_negative in *. simpl.
    destruct (Z.ltb_spec (d - t1) 0), (Z.ltb_spec (d - (t1 + t2)) 0); simpl;
      try lia; [done| |].
    + destruct (Z.ltb_spec (d - t1 - t2) 0); simpl; [done|lia].
    + destruct (Z.ltb_spec (d - t1 - t2) 0); simpl; [lia|].
      rewrite IH. do 2 f_equal. lia.
  - apply Permutation_app_head.
    induction l as [|[d m] l IH]; [done|].
    unfold still_waiting, overdue, Scenarios.int_negative in *. simpl.
    destruct (Z.ltb_spec (d - t1) 0), (Z.ltb_spec (d - (t1 + t2)) 0); simpl;
      try lia.
    + by constructor.
    + destruct (Z.ltb_spec (d - t1 - t2) 0); simpl; [|lia].
      rewrite <- Permutation_middle. by constructor.
    + destruct (Z.ltb_spec (d - t1 - t2) 0); simpl; [lia|done].
Qed.

End TimerExtras.

(** ** The number guessing demo: the whole game *)

Section DemoExtras.
Import GuessMyNumber.

Lemma randint_range (entropy a b : Z) :
  a ≤ b → ∃ n, randint entropy a b = inr n ∧ a ≤ n ≤ b.
Proof.
  intros Hab. unfold randint. destruct (Z.leb_spec a b); [|lia].
  eexists. split; [reflexivity|].
  pose proof (Z.mod_pos_bound entropy (b - a + 1)). lia.
Qed.

Lemma randint_empty (entropy a b : Z) : b < a → randint entropy a b = inl ValueError.
Proof. intros Hab. unfold randint. destruct (Z.leb_spec a b); [lia|done]. Qed.

Lemma on_execute_bracketed (g : GuessNumber) (w : World) :
  bracketed w →
  bracketed (on_execute g w) ∧ number (on_execute g w) = number w ∧
  lower_bound w ≤ lower_bound (on_execute g w) ∧
  upper_bound (on_execute g w) ≤ upper_bound w.
Proof.
  unfold bracketed, on_execute. intros Hw.
  destruct (Z.eqb_spec (guess g) (number w)); simpl; [lia|].
  destruct (Z.ltb_spec (guess g) (number w)); simpl; [lia|].
  destruct (Z.gtb_spec (guess g) (number w)); simpl; lia.
Qed.

(** X18: the bounds always bracket the secret number.  Once the number lies
    strictly between the bounds, it still does after any sequence of guesses
    has been executed; the guesses never change the number, never lower the
    lower bound and never raise the upper bound. *)
Theorem guesses_keep_number_bracketed (guesses : list GuessNumber) (w : World) :
  bracketed w →
  bracketed (play guesses w) ∧
  number (play guesses w) = number w ∧
  lower_bound w ≤ lower_bound (play guesses w) ∧
  upper_bound (play guesses w) ≤ upper_bound w.
Proof.
  revert w. induction guesses as [|g guesses IH]; intros w Hw.
  - unfold play. simpl. repeat split; try lia; apply Hw.
  - destruct (on_execute_bracketed g w Hw) as (Hb & Hn & Hlo & Hup).
    destruct (IH (on_execute g w) Hb) as (Hb' & Hn' & Hlo' & Hup').
    unfold play in *. simpl. repeat split; try lia; apply Hb'.
Qed.

(** X19: executing a guess twice is the same as executing it once, and the
    winner is whoever guessed right last: a right guess replaces the winner
    that an earlier guess may have set, also when the game is over already,
    since neither [on_check] nor [on_execute] looks at the state of the
    game. *)
Theorem guess_execution_repeats (g earlier : GuessNumber) (w : World) (who : Z) :
  on_execute g (on_execute g w) = on_execute g w ∧
  on_check g w = None ∧
  winner (on_execute (mkGuessNumber who (number w)) (on_execute earlier w)) = who.
Proof.
  split; [|split; [done|]].
  - unfold on_execute.
    destruct (Z.eqb_spec (guess g) (number w)) as [He|Hne]; simpl.
    { by rewrite He, Z.eqb_refl. }
    destruct (Z.eqb_spec (guess g) (number w)); [done|].
    destruct (Z.ltb_spec (guess g) (number w)); simpl.
    { destruct (Z.eqb_spec (guess g) (number w)); [done|].
      destruct (Z.ltb_spec (guess g) (number w)); [|lia]. f_equal. lia. }
    destruct (Z.gtb_spec (guess g) (number w)); simpl; [|lia].
    destruct (Z.eqb_spec (guess g) (number w)); [done|].
    destruct (Z.ltb_spec (guess g) (number w)); [lia|].
    destruct (Z.gtb_spec (guess g) (number w)); [|lia]. f_equal. lia.
  - assert (Hn : number (on_execute earlier w) = number w).
    { unfold on_execute.
      destruct (guess earlier =? number w); [done|].
      destruct (guess earlier <? number w); [done|].
      by destruct (guess earlier >? number w). }
    unfold on_execute at 1. simpl. by rewrite Hn, Z.eqb_refl.
Qed.

(** X20: picking the number sets the game up.  When the bounds leave room
    for a number, [PickNumber(lower, upper)] is built without error, passes
    its own [on_check], and its execution leaves a world whose number lies
    strictly between the bounds [lower] and [upper], winner and state of the
    game untouched.  [on_check] passes exactly for numbers strictly between
    the bounds, and the referee's [PickNumber(0, 5)] picks one of 1 to 4. *)
Theorem pick_number_sets_up_bracket (entropy lower upper : Z) (w : World) :
  lower + 1 ≤ upper - 1 →
  (∃ p, PickNumber__init__ entropy lower upper = inr p ∧
        PickNumber_on_check p w = None ∧
        bracketed (PickNumber_on_execute p w) ∧
        lower_bound (PickNumber_on_execute p w) = lower ∧
        upper_bound (PickNumber_on_execute p w) = upper ∧
        winner (PickNumber_on_execute p w) = winner w ∧
        game_over (PickNumber_on_execute p w) = game_over w) ∧
  (∀ p, PickNumber_on_check p w = None ↔
        pick_lower_bound p < pick_number p < pick_upper_bound p) ∧
  (∃ p, Referee_on_start_game entropy = inr p ∧ 1 ≤ pick_number p ≤ 4 ∧
        pick_lower_bound p = 0 ∧ pick_upper_bound p = 5).
Proof.
  intros Hroom.
  assert (Hcheck : ∀ p, PickNumber_on_check p w = None ↔
            pick_lower_bound p < pick_number p < pick_upper_bound p).
  { intros p. unfold PickNumber_on_check.
    destruct (Z.ltb_spec (pick_lower_bound p) (pick_number p)),
             (Z.ltb_spec (pick_number p) (pick_upper_bound p)); simpl;
      split; try done; lia. }
  split; [|split; [exact Hcheck|]].
  - destruct (randint_range entropy (lower + 1) (upper - 1) Hroom) as (n & Hn & Hr).
    exists (mkPickNumber lower upper n). unfold PickNumber__init__. rewrite Hn.
    split; [done|]. split; [apply Hcheck; simpl; lia|].
    unfold bracketed. simpl. repeat split; lia.
  - destruct (randint_range entropy (0 + 1) (5 - 1)) as (n & Hn & Hr); [lia|].
    exists (mkPickNumber 0 5 n). unfold Referee_on_start_game, PickNumber__init__.
    rewrite Hn. simpl. repeat split; lia.
Qed.

(** X21: the computer player makes progress.  When the number is bracketed
    and the timer of an [AiActor] runs out, it sends a guess in its own name
    that lies strictly between the bounds and restarts its timer.  Executing
    that guess either ends the game with the actor as winner, or leaves the
    number bracketed by bounds that are strictly closer together. *)
Theorem ai_guess_narrows_the_range {num : Type} (minus : num → num → num)
    (negative : num → bool) (entropy : Z) (fresh_timer dt : num) (w : World)
    (self : AiActor num) :
  bracketed w →
  negative (minus (timer self) dt) = true →
  ∃ g,
    on_update_game minus negative entropy fresh_timer w dt self =
      (mkAiActor (actor_id self) fresh_timer, inr (Some g)) ∧
    player g = actor_id self ∧
    lower_bound w < guess g < upper_bound w ∧
    (guess g = number w →
       winner (on_execute g w) = actor_id self ∧ game_over (on_execute g w) = true) ∧
    (guess g ≠ number w →
       bracketed (on_execute g w) ∧
       upper_bound (on_execute g w) - lower_bound (on_execute g w) <
         upper_bound w - lower_bound w).
Proof.
  intros Hw Hfire. unfold bracketed in Hw.
  destruct (randint_range entropy (lower_bound w + 1) (upper_bound w - 1))
    as (n & Hn & Hr); [lia|].
  exists (mkGuessNumber (actor_id self) n).
  unfold on_update_game. simpl. rewrite Hfire, Hn.
  split; [done|]. split; [done|]. split; [lia|]. split.
  - intros Hright. unfold on_execute. simpl.
    by rewrite (proj2 (Z.eqb_eq _ _) Hright).
  - intros Hwrong. unfold bracketed, on_execute. simpl.
    destruct (Z.eqb_spec n (number w)); [done|].
    destruct (Z.ltb_spec n (number w)); simpl; [lia|].
    destruct (Z.gtb_spec n (number w)); simpl; lia.
Qed.

(** X22: without room between the bounds there is no guess.  Bounds that
    are less than two apart, as in a new world, where both are 0, make
    [random.randint] raise [ValueError]: building the [PickNumber] fails, and
    an [AiActor] whose timer runs out fails in [on_update_game], with its
    timer counted down but not restarted, so that the next update fails in
    the same way. *)
Theorem no_guess_without_room {num : Type} (minus : num → num → num)
    (negative : num → bool) (entropy entropy' : Z) (fresh_timer dt dt' : num) (w : World)
    (self : AiActor num) :
  upper_bound w - lower_bound w < 2 →
  negative (minus (timer self) dt) = true →
  negative (minus (minus (timer self) dt) dt') = true →
  PickNumber__init__ entropy (lower_bound w) (upper_bound w) = inl ValueError ∧
  on_update_game minus negative entropy fresh_timer w dt self =
    (mkAiActor (actor_id self) (minus (timer self) dt), inl ValueError) ∧
  on_update_game minus negative entropy' fresh_timer w dt'
    (on_update_game minus negative entropy fresh_timer w dt self).1 =
    (mkAiActor (actor_id self) (minus (minus (timer self) dt) dt'), inl ValueError).
Proof.
  intros Hroom Hfire Hfire'.
  assert (Hempty : ∀ e, randint e (lower_bound w + 1) (upper_bound w - 1) = inl ValueError).
  { intros e. apply randint_empty. lia. }
  split; [|split].
  - unfold PickNumber__init__. by rewrite Hempty.
  - unfold on_update_game. simpl. by rewrite Hfire, Hempty.
  - unfold on_update_game. simpl. rewrite Hfire, Hempty. simpl.
    by rewrite Hfire', Hempty.
Qed.

End DemoExtras.

(** ** Messages: executing and undoing on the model of the world *)

Section ExecuteUndo.
Import WorldModel.
Variable id_after_reset : option Z → option Z.

#[local] Instance undo_ops : Messages.WorldOps nat (option Z) Store :=
  store_ops id_after_reset.

Lemma restore_removed_keeps_fresh (s : Store) (x x' : nat * Z) :
  fresh_ok s x' → x.1 ≠ x'.1 → x.2 ≠ x'.2 → fresh_ok (restore_removed s x) x'.
Proof.
  destruct x as [r i], x' as [r' i']. simpl. intros [Hr' Hw'] Hr Hi.
  split; by rewrite lookup_insert_ne.
Qed.

Lemma add_loop (added : list (nat * Z)) (s : Store) :
  NoDup (map fst added) →
  NoDup (map snd added) →
  Forall (fresh_ok s) added →
  for_each (map fst added) (λ token, Messages._add_token token) s =
    (foldl restore_removed s added, Return tt).
Proof.
  revert s. induction added as [|[a i] added IH]; intros s Hnda Hndi Hok; [done|].
  apply NoDup_cons in Hnda as [Ha Hnda]. apply NoDup_cons in Hndi as [Hi Hndi].
  apply Forall_cons in Hok as [[Hh Hw] Hok].
  cbn [map for_each foldl fst]. unfold bind at 1. simpl Messages._add_token.
  rewrite (_add_token_eq s i a Hh Hw). apply IH; [done|done|].
  rewrite Forall_forall in *. intros x' Hin.
  apply restore_removed_keeps_fresh; [by apply Hok| |]; simpl.
  - intros ->. apply Ha. apply list_elem_of_fmap. by exists x'.
  - intros ->. apply Hi. apply list_elem_of_fmap. by exists x'.
Qed.

Lemma undo_added_keeps_registered (s : Store) (x x' : nat * Z) :
  registered_ok s x' → x.1 ≠ x'.1 → x.2 ≠ x'.2 →
  registered_ok (undo_added s (as_real x)) x'.
Proof.
  destruct x as [r i], x' as [r' i']. simpl. intros [Hr' Hw'] Hr Hi.
  split; [by rewrite lookup_insert_ne|by rewrite lookup_delete_ne].
Qed.

Lemma remove_loop (removed : list (nat * Z)) (s : Store) :
  NoDup (map fst removed) →
  NoDup (map snd removed) →
  Forall (registered_ok s) removed →
  for_each (map fst removed) (λ token, Messages._remove_token token) s =
    (foldl undo_added s (map as_real removed), Return tt).
Proof.
  revert s. induction removed as [|[r i] removed IH]; intros s Hndr Hndi Hok; [done|].
  apply NoDup_cons in Hndr as [Hr Hndr]. apply NoDup_cons in Hndi as [Hi Hndi].
  apply Forall_cons in Hok as [[Hh Hw] Hok].
  cbn [map for_each foldl fst]. unfold bind at 1. simpl Messages._remove_token.
  rewrite (_remove_token_eq s i r Hh Hw). apply IH; [done|done|].
  rewrite Forall_forall in *. intros x' Hin.
  apply (undo_added_keeps_registered s (r, i)); [by apply Hok| |]; simpl.
  - intros ->. apply Hr. apply list_elem_of_fmap. by exists x'.
  - intros ->. apply Hi. apply list_elem_of_fmap. by exists x'.
Qed.

Lemma as_real_ids (l : list (nat * Z)) : map (λ e, e.1.2) (map as_real l) = map snd l.
Proof. rewrite map_map. by apply map_ext. Qed.

Lemma as_real_tokens (l : list (nat * Z)) : map (λ e, e.2) (map as_real l) = map fst l.
Proof. rewrite map_map. by apply map_ext. Qed.

Lemma as_real_copies (l : list (nat * Z)) : map (λ e, e.1.1) (map as_real l) = map fst l.
Proof. rewrite map_map. by apply map_ext. Qed.

(** Lookups in the store that [_execute] leaves behind. *)
Lemma executed_added (s : Store) (added removed : list (nat * Z)) (a : nat) (i : Z) :
  NoDup (map fst added) → NoDup (map snd added) →
  Forall (fresh_ok s) added → Forall (registered_ok s) removed →
  (a, i) ∈ added →
  added_ok (executed s added removed) (as_real (a, i)).
Proof.
  intros Hnda Hndi Hfresh Hreg Hin. unfold executed.
  rewrite Forall_forall in Hfresh, Hreg. destruct (Hfresh _ Hin) as [Hh Hw].
  destruct (restore_removed_lookup added s a i Hnda Hndi Hin) as [Hw1 Hh1].
  assert (Hheap : heap (foldl undo_added (foldl restore_removed s added)
                          (map as_real removed)) !! a =
                  Some (mkToken (Some i) RegisteredInWorld)).
  { rewrite undo_added_heap_frame; [done|]. rewrite as_real_tokens.
    intros Hx. apply list_elem_of_fmap in Hx as ([r j] & Heq & Hin').
    simpl in Heq. subst. destruct (Hreg _ Hin') as [Hr _]. congruence. }
  split; [|split; [|done]].
  - eexists. split; [exact Hheap|done].
  - simpl. rewrite undo_added_world, as_real_ids. rewrite decide_False; [done|].
    intros Hx. apply list_elem_of_fmap in Hx as ([r j] & Heq & Hin').
    simpl in Heq. subst. destruct (Hreg _ Hin') as [_ Hr]. congruence.
Qed.

Lemma executed_removed (s : Store) (added removed : list (nat * Z)) (r : nat) (j : Z) :
  NoDup (map fst removed) →
  (r, j) ∈ removed →
  removed_ok (executed s added removed) (r, j).
Proof.
  intros Hndr Hin. unfold executed. split.
  - apply undo_added_heap with (c := r).
    + by rewrite as_real_tokens.
    + apply list_elem_of_fmap. by exists (r, j).
  - rewrite undo_added_world, as_real_ids. rewrite decide_True; [done|].
    apply list_elem_of_fmap. by exists (r, j).
Qed.

(** X23: undoing gives the world back.  On the model of tokens and world
    used above: when the tokens to add are unregistered, carry distinct free
    ids, and the tokens to remove are registered under distinct ids,
    [_execute] succeeds, and [_handle_hard_sync_error] for the same message
    then hands to its hook a store whose world maps exactly the ids it
    mapped before the message was executed, to the same tokens, with the
    removed tokens registered under their old ids again. *)
Theorem execute_then_undo_restores_world (hook : Messages.Message nat → M Store unit)
    (m : Messages.Message nat) (s : Store) (added removed : list (nat * Z)) :
  Messages.tokens_to_add m = map fst added →
  Messages.tokens_to_remove m = map fst removed →
  NoDup (map fst added) → NoDup (map snd added) →
  NoDup (map fst removed) → NoDup (map snd removed) →
  Forall (fresh_ok s) added →
  Forall (registered_ok s) removed →
  ∃ s_executed s_undone,
    Messages._execute Messages.default_on_execute m s = (s_executed, Return tt) ∧
    (∀ a i, (a, i) ∈ added → world s_executed !! i = Some a) ∧
    (∀ r j, (r, j) ∈ removed → world s_executed !! j = None) ∧
    Messages._handle_hard_sync_error hook m s_executed = hook m s_undone ∧
    world s_undone = world s ∧
    (∀ r j, (r, j) ∈ removed → heap s_undone !! r = heap s !! r).
Proof.
  intros Hadd Hrem Hnda Hndi Hndr Hndj Hfresh Hreg.
  set (s1 := executed s added removed).
  set (s2 := reversed s1 (map as_real added) removed).
  assert (Hadded : Forall (added_ok s1) (map as_real added)).
  { apply Forall_forall. intros e He.
    apply list_elem_of_fmap in He as ([a i] & -> & Hin). by apply executed_added. }
  assert (Hremoved : Forall (removed_ok s1) removed).
  { apply Forall_forall. intros [r j] Hin. by apply executed_removed. }
  exists s1, s2. split; [|split; [|split; [|split; [|split]]]].
  - unfold Messages._execute. rewrite Hadd, Hrem.
    rewrite (bind_Return _ _ _ _ _ (add_loop added s Hnda Hndi Hfresh)).
    erewrite bind_Return; [done|]. apply remove_loop; [done|done|].
    apply Forall_forall. intros [r j] Hin.
    rewrite Forall_forall in Hfresh, Hreg. destruct (Hreg _ Hin) as [Hh Hw].
    destruct (restore_removed_frame added s) as [Hfh Hfw]. split.
    + rewrite Hfh; [done|]. intros Hx.
      apply list_elem_of_fmap in Hx as ([a i] & Heq & Hin'). simpl in Heq. subst.
      destruct (Hfresh _ Hin') as [Ha _]. congruence.
    + rewrite Hfw; [done|]. intros Hx.
      apply list_elem_of_fmap in Hx as ([a i] & Heq & Hin'). simpl in Heq. subst.
      destruct (Hfresh _ Hin') as [_ Ha]. congruence.
  - intros a i Hin. rewrite Forall_forall in Hadded.
    by destruct (Hadded (as_real (a, i))) as (_ & Hw & _);
      [apply list_elem_of_fmap; by exists (a, i)|].
  - intros r j Hin. rewrite Forall_forall in Hremoved.
    by destruct (Hremoved _ Hin) as [_ Hw].
  - unfold Messages._handle_hard_sync_error. rewrite Hadd, Hrem.
    rewrite <- (as_real_copies added).
    rewrite (bind_Return _ _ _ _ _
               (undo_added_loop id_after_reset (map as_real added) s1
                  ltac:(by rewrite as_real_ids) Hadded)).
    erewrite bind_Return; [done|].
    apply restore_removed_loop; [done|done|].
    apply undo_added_loop_removed; [by rewrite as_real_ids|done|done].
  - apply map_eq. intros k. subst s2. unfold reversed.
    destruct (decide (k ∈ map snd removed)) as [Hk|Hk].
    + apply list_elem_of_fmap in Hk as ([r j] & -> & Hin). simpl.
      destruct (restore_removed_lookup removed
                  (foldl undo_added s1 (map as_real added)) r j Hndr Hndj Hin) as [-> _].
      rewrite Forall_forall in Hreg. by destruct (Hreg _ Hin) as [_ ->].
    + destruct (restore_removed_frame removed
                  (foldl undo_added s1 (map as_real added))) as [_ ->]; [|done].
      rewrite undo_added_world, as_real_ids.
      destruct (decide (k ∈ map snd added)) as [Hka|Hka].
      * apply list_elem_of_fmap in Hka as ([a i] & -> & Hin). simpl.
        rewrite Forall_forall in Hfresh. by destruct (Hfresh _ Hin) as [_ ->].
      * subst s1. unfold executed.
        rewrite undo_added_world, as_real_ids, decide_False by done.
        by destruct (restore_removed_frame added s) as [_ ->].
  - intros r j Hin. subst s2. unfold reversed.
    destruct (restore_removed_lookup removed
                (foldl undo_added s1 (map as_real added)) r j Hndr Hndj Hin) as [_ ->].
    rewrite Forall_forall in Hreg. by destruct (Hreg _ Hin) as [-> _].
Qed.

End ExecuteUndo.

(** ** The further properties at work on concrete scenarios *)

Section ExtraInstances.
Import Scenarios.

(** X4 with a string slipped in behind token 11, in a world that holds
    token 12. *)
Lemma check_raises_on_value_without_id_at_string :
  Messages._check in_world py_id issued fst accept_all
    (Messages.add_tokens [PyStr "not a token"] swap_tokens).1 [12] (1, [11]) [] =
    ([], Raise AttributeError).
Proof.
  apply (check_raises_on_value_without_id in_world py_id issued fst accept_all
           swap_tokens [12] (1, [11]) (PyStr "not a token") [] eq_refl).
  - constructor; [reflexivity|constructor].
  - reflexivity.
  - reflexivity.
Defined.

(** X5 on a message that adds token 3 and then token 4, which has no id:
    token 3 stays registered. *)
Lemma execute_stops_at_failed_add_at_unnumbered :
  ∃ s', Messages._execute (ops := WorldModel.store_ops forget_id)
          Messages.default_on_execute add_3_and_4 store_with_unnumbered_token =
          (s', Raise ApiUsageError) ∧
        WorldModel.world s' !! 30 = Some 3%nat.
Proof.
  eexists. split.
  - eapply (execute_stops_at_failed_add (ops := WorldModel.store_ops forget_id)
              Messages.default_on_execute add_3_and_4 [3%nat] 4%nat []).
    + reflexivity.
    + reflexivity.
    + reflexivity.
  - reflexivity.
Defined.

(** X6 with callbacks 7 and 8 on a new forum. *)
Lemma callbacks_run_in_subscription_order_at_7_8 :
  (Messaging.run fst
     [Messaging.DoSubscribe "Move"%string 7%nat; Messaging.DoSubscribe "Move"%string 8%nat;
      Messaging.DoLock; Messaging.DoPublish ("Move"%string, 1); Messaging.DoUpdate silent]
     (Messaging.Forum__init__ []).1).2 =
    [Messaging.Called 7%nat ("Move"%string, 1); Messaging.Called 8%nat ("Move"%string, 1)].
Proof.
  exact (proj2 (callbacks_run_in_subscription_order fst
                  (Messaging.Forum__init__ (Msg := GameMessage) (Flavor := string) []).1
                  [7%nat; 8%nat] ("Move"%string, 1) silent eq_refl)).
Defined.

(** X9 on the forum that listens to pipe 0. *)
Lemma update_delivers_once_at_listening_forum :
  (Messaging.update fst silent (Messaging.update fst duplicate_2 listening_forum).1).2 =
    Return [].
Proof.
  exact (proj2 (update_delivers_once fst duplicate_2 silent listening_forum eq_refl
                  (λ _ _, eq_refl))).
Defined.

(** X13: the forum's target is 1, the packet's is 4, and the local message
    goes out under 4. *)
Lemma sends_use_target_of_last_packet_at_4 :
  ∃ events,
    (Messaging.update fst retargeting forum_with_local_message).2 = Return events ∧
    Messaging.Sent 0%nat 4 ("Move"%string, 5) ∈ events ∧
    Messaging.target (Messaging.update fst retargeting forum_with_local_message).1 = 1.
Proof.
  destruct (sends_use_target_of_last_packet fst retargeting forum_with_local_message
              0%nat [] 4 9 1 "Move"%string ("Move"%string, 1) ("Move"%string, 5)
              eq_refl eq_refl eq_refl (list_elem_of_here _ _))
    as (events & Hev & Hsent & _ & Ht).
  exists events. split; [exact Hev|]. split; [exact Hsent|exact Ht].
Defined.

(** X14: tickers 1, 2, 3 are received, the delivery of ticker 2 is reported,
    and the history ends at 2. *)
Lemma history_follows_last_delivery_at_2 :
  Messaging.history (Messaging.update fst delivers_2 listening_forum).1 !! 9 = Some 2.
Proof.
  exact (proj2 (history_follows_last_delivery fst delivers_2 listening_forum
                  0%nat [] 1 9 2 "Move"%string ("Move"%string, 2)
                  eq_refl eq_refl eq_refl)).
Defined.

(** X15 with ticker 2 of origin 9 on a forum that has seen ticker 3. *)
Lemma history_survives_unlock_not_teardown_at_3 :
  Messaging.accept_packet 0%nat (Messaging.lock (Messaging.unlock forum_at_3), 1)
    ((1, 9, 2), "Move"%string, ("Move"%string, 2)) =
    (Messaging.lock (Messaging.unlock forum_at_3), 1) ∧
  Messaging.publications
    (Messaging.accept_packet 0%nat (Messaging.lock (Messaging.teardown forum_at_3), 1)
       ((1, 9, 2), "Move"%string, ("Move"%string, 2))).1 =
    [(Some 0%nat, Some (1, 9, 2), ("Move"%string, 2))].
Proof.
  destruct (history_survives_unlock_not_teardown forum_at_3 0%nat 1 1 9 2
              "Move"%string ("Move"%string, 2) eq_refl)
    as (_ & _ & Hkept & _ & _ & Hagain).
  - unfold Messaging.seen. simpl. discriminate.
  - split; [exact Hkept|exact Hagain].
Defined.

(** X17 with ticks of 2 and 3 against one tick of 5. *)
Lemma timer_ticks_add_up_at_2_3 :
  Messaging.pending (Messaging.Timer_deliver Z.sub int_negative 3
                       (Messaging.Timer_deliver Z.sub int_negative 2 timer_due_in_5).1).1 =
    Messaging.pending (Messaging.Timer_deliver Z.sub int_negative (2 + 3) timer_due_in_5).1.
Proof.
  refine (proj1 (timer_ticks_add_up 2 3 timer_due_in_5 _)). discriminate.
Defined.

(** X18 with the guesses 3, 9 and 7 for the number 7. *)
Lemma guesses_keep_number_bracketed_at_mid_game :
  GuessMyNumber.bracketed (GuessMyNumber.play three_guesses mid_game) ∧
  GuessMyNumber.number (GuessMyNumber.play three_guesses mid_game) = 7.
Proof.
  assert (Hw : GuessMyNumber.bracketed mid_game).
  { unfold GuessMyNumber.bracketed. simpl. split; reflexivity. }
  destruct (guesses_keep_number_bracketed three_guesses mid_game Hw) as (Hb & Hn & _).
  split; [exact Hb|exact Hn].
Defined.

(** X20 with the bounds of the referee. *)
Lemma pick_number_sets_up_bracket_at_0_5 :
  ∃ p, GuessMyNumber.PickNumber__init__ 42 0 5 = inr p ∧
       GuessMyNumber.bracketed
         (GuessMyNumber.PickNumber_on_execute p GuessMyNumber.World__init__).
Proof.
  assert (Hroom : 0 + 1 ≤ 5 - 1) by discriminate.
  destruct (pick_number_sets_up_bracket 42 0 5 GuessMyNumber.World__init__ Hroom)
    as ((p & Hp & _ & Hb & _) & _).
  exists p. split; [exact Hp|exact Hb].
Defined.

(** X21 in mid-game, when two time units pass for a timer that stands
    at 1. *)
Lemma ai_guess_narrows_the_range_at_mid_game :
  ∃ g, (GuessMyNumber.on_update_game Z.sub int_negative 42 3 mid_game 2 ai_player).2 =
         inr (Some g) ∧
       0 < GuessMyNumber.guess g < 10.
Proof.
  assert (Hw : GuessMyNumber.bracketed mid_game).
  { unfold GuessMyNumber.bracketed. simpl. split; reflexivity. }
  destruct (ai_guess_narrows_the_range Z.sub int_negative 42 3 2 mid_game ai_player
              Hw eq_refl) as (g & Hg & _ & Hr & _).
  exists g. rewrite Hg. split; [reflexivity|exact Hr].
Defined.

(** X22 in a new world, where both bounds are 0. *)
Lemma no_guess_without_room_at_new_world :
  GuessMyNumber.PickNumber__init__ 42 0 0 = inl GuessMyNumber.ValueError ∧
  (GuessMyNumber.on_update_game Z.sub int_negative 42 3 GuessMyNumber.World__init__ 2
     ai_player).2 = inl GuessMyNumber.ValueError.
Proof.
  destruct (no_guess_without_room Z.sub int_negative 42 42 3 2 2
              GuessMyNumber.World__init__ ai_player eq_refl eq_refl eq_refl)
    as (Hp & Ha & _).
  split; [exact Hp|]. by rewrite Ha.
Defined.

(** X23 on a message that adds token 1 and removes token 2. *)
Lemma execute_then_undo_restores_world_at_swap :
  ∃ s_executed s_undone,
    Messages._execute (ops := WorldModel.store_ops forget_id)
      Messages.default_on_execute swap_1_for_2 store_before_swap =
      (s_executed, Return tt) ∧
    Messages._handle_hard_sync_error (ops := WorldModel.store_ops forget_id)
      Messages.default_on_hard_sync_error swap_1_for_2 s_executed =
      (s_undone, Raise UnhandledSyncError) ∧
    WorldModel.world s_undone = WorldModel.world store_before_swap.
Proof.
  assert (Hfresh : Forall (WorldModel.fresh_ok store_before_swap) [(1%nat, 10)]).
  { constructor; [|constructor]. split; reflexivity. }
  assert (Hreg : Forall (WorldModel.registered_ok store_before_swap) [(2%nat, 20)]).
  { constructor; [|constructor]. split; reflexivity. }
  destruct (execute_then_undo_restores_world forget_id Messages.default_on_hard_sync_error
              swap_1_for_2 store_before_swap [(1%nat, 10)] [(2%nat, 20)]
              eq_refl eq_refl (NoDup_singleton _) (NoDup_singleton _)
              (NoDup_singleton _) (NoDup_singleton _) Hfresh Hreg)
    as (s1 & s2 & Hex & _ & _ & Hundo & Hworld & _).
  exists s1, s2. split; [exact Hex|]. split; [exact Hundo|exact Hworld].
Defined.

End ExtraInstances.
